(** * simd-filter: the pixel-transform engine of [src/filters.hpp]

    A shallow embedding of the four filters ([apply_greyscale_rgb_simd],
    [apply_invert_rgb_simd], [apply_gaussian_rgb], [apply_laplacian_rgb]) and
    of their helpers, followed by the properties the specification states
    about them.

    Conventions of the embedding.
    - [unsigned char] is [Byte.byte]; [uchar_val] gives its value in [Z] and
      [to_uchar] is [static_cast<unsigned char>] (reduction modulo 2^8).
    - [std::size_t] values are sizes of, and offsets into, vectors that exist;
      they stay below [vector::max_size() < 2^63], so no 64-bit operation of
      the code wraps on them and they are plain [Z].
    - [int] is a [Z] in [-2^31, 2^31): every [int] operation of the code that
      can leave that range is written with [int_add], [int_sub], [int_mul],
      which wrap (two's complement, what the x86-64 target computes).
    - [double] is the IEEE-754 binary64 of [PrimFloat]; [std::exp] belongs to
      the C library and is a parameter of the functions that call it.
    - a call either returns, throws, or reads/writes outside an object; the
      last is reported as [OutOfBounds] instead of being given a value.
      Loops carry fuel, and [OutOfFuel] is the outcome of a loop that has
      used it up; the fuel each filter passes covers its iterations.

    The definitions come first: the run-time model ([Cxx], [Double],
    [Sse2]), the code ([Filters], and [Main] for the command-line program
    of [main.cpp]), the transforms in the words of the specification
    ([Spec]) and concrete inputs ([Examples]).  The proofs follow, then the
    statements of the specification, and last further properties of the
    code. *)

From Stdlib Require Import ZArith Lia Floats Uint63.
From Stdlib Require Strings.Byte.
From Stdlib Require Import Strings.String.
From stdpp Require Import base list.

Local Open Scope Z_scope.

(** ** The C++ run-time model *)

Module Cxx.

(** *** [unsigned char] *)

Abbreviation uchar := Byte.byte.

Definition uchar_val (b : uchar) : Z := Z.of_N (Byte.to_N b).

(** [static_cast<unsigned char>(z)] for an integer [z]. *)
Definition to_uchar (z : Z) : uchar :=
  match Byte.of_N (Z.to_N (z mod 256)) with
  | Some b => b
  | None => Byte.x00
  end.

(** *** [int] and [unsigned int] *)

Definition INT_MIN : Z := - 2 ^ 31.
Definition INT_MAX : Z := 2 ^ 31 - 1.

(** The value of a 32-bit two's complement pattern. *)
Definition wrap_int (z : Z) : Z := (z + 2 ^ 31) mod 2 ^ 32 - 2 ^ 31.

Definition int_add (a b : Z) : Z := wrap_int (a + b).
Definition int_sub (a b : Z) : Z := wrap_int (a - b).
Definition int_mul (a b : Z) : Z := wrap_int (a * b).
Definition int_neg (a : Z) : Z := wrap_int (- a).

(** [static_cast<int>(u)] for an [unsigned int] [u]. *)
Definition int_of_unsigned (u : Z) : Z := wrap_int u.

(** [static_cast<std::size_t>(i)] for an [int] [i]. *)
Definition size_t_of_int (i : Z) : Z := i mod 2 ^ 64.

(** [std::clamp(v, lo, hi)], as <algorithm> defines it:
    [(v < lo) ? lo : (hi < v) ? hi : v]. *)
Definition clamp (v lo hi : Z) : Z :=
  if v <? lo then lo else if hi <? v then hi else v.

(** *** Outcomes of a call *)

Inductive exception : Set :=
| invalid_argument
| length_error.

Inductive outcome (A : Type) : Type :=
| Returned (a : A)
| Threw (e : exception)
| OutOfBounds
| OutOfFuel.

Arguments Returned {A} a.
Arguments Threw {A} e.
Arguments OutOfBounds {A}.
Arguments OutOfFuel {A}.

#[export] Instance outcome_ret : MRet outcome := @Returned.

#[export] Instance outcome_bind : MBind outcome := fun A B k m =>
  match m with
  | Returned a => k a
  | Threw e => Threw e
  | OutOfBounds => OutOfBounds
  | OutOfFuel => OutOfFuel
  end.

(** *** Arrays and vectors *)

(** [p[i]] read. *)
Definition load {A} (p : list A) (i : Z) : outcome A :=
  if i <? 0 then OutOfBounds
  else match p !! Z.to_nat i with
       | Some a => Returned a
       | None => OutOfBounds
       end.

(** [p[i] = v]. *)
Definition store {A} (p : list A) (i : Z) (v : A) : outcome (list A) :=
  if (0 <=? i) && (i <? Z.of_nat (length p))
  then Returned (<[Z.to_nat i := v]> p)
  else OutOfBounds.

(** [n] consecutive elements read from offset [off]. *)
Definition load_n {A} (n : nat) (p : list A) (off : Z)
    : outcome (list A) :=
  if (0 <=? off) && (off + Z.of_nat n <=? Z.of_nat (length p))
  then Returned (take n (drop (Z.to_nat off) p))
  else OutOfBounds.

(** The elements of [vs] written from offset [off] on. *)
Definition store_n {A} (p : list A) (off : Z) (vs : list A)
    : outcome (list A) :=
  if (0 <=? off) && (off + Z.of_nat (length vs) <=? Z.of_nat (length p))
  then Returned (take (Z.to_nat off) p ++ vs
                   ++ drop (Z.to_nat off + length vs) p)
  else OutOfBounds.

(** [std::vector<T> v(n)] for a [std::size_t] [n] that was converted from an
    [int]: libstdc++ throws [std::length_error] above [max_size()]. *)
Definition vector_n {A} (max_size : Z) (dflt : A) (n : Z)
    : outcome (list A) :=
  if max_size <? n then Threw length_error
  else Returned (replicate (Z.to_nat n) dflt).

Definition max_size_uchar : Z := 2 ^ 63 - 1.
Definition max_size_double : Z := (2 ^ 63 - 1) / 8.

(** *** Loops

    [for (; cond(i); i += step) body], started at [i] in state [s]; the
    result is the value of [i] at exit and the final state.  [fuel] bounds
    the number of iterations; running out of it while [cond] still holds is
    [OutOfFuel]. *)
Fixpoint for_loop {St} (fuel : nat) (cond : Z -> bool) (step : Z)
    (body : Z -> St -> outcome St) (i : Z) (s : St) : outcome (Z * St) :=
  match fuel with
  | O => if cond i then OutOfFuel else Returned (i, s)
  | S fuel' =>
      if cond i
      then s' ← body i s; for_loop fuel' cond step body (i + step) s'
      else Returned (i, s)
  end.

End Cxx.

Import Cxx.

(** ** [double]

    IEEE-754 binary64 with the conversions the filters use.  Conversions from
    integers are exact below 2^53.  A conversion to [int] whose result does
    not fit ([NaN] included) yields [INT_MIN], the "integer indefinite" of
    the [cvttsd2si] instruction. *)

Module Double.

(** Conversion of an [int], [unsigned int] or [unsigned char] value. *)
Definition of_int (z : Z) : float :=
  if z <? 0 then PrimFloat.opp (PrimFloat.of_uint63 (Uint63.of_Z (- z)))
  else PrimFloat.of_uint63 (Uint63.of_Z z).

(** The integer part of a finite [double], rounded toward zero. *)
Definition truncate (f : float) : option Z :=
  match Prim2SF f with
  | S754_zero _ => Some 0
  | S754_finite s m e =>
      let a := Z.shiftl (Z.pos m) e in
      Some (if s then - a else a)
  | S754_infinity _ => None
  | S754_nan => None
  end.

(** [static_cast<int>(f)]. *)
Definition to_int (f : float) : Z :=
  match truncate f with
  | Some z => if (INT_MIN <=? z) && (z <=? INT_MAX) then z else INT_MIN
  | None => INT_MIN
  end.

(** [static_cast<unsigned char>(f)]. *)
Definition to_uchar (f : float) : uchar := Cxx.to_uchar (to_int f).

(** [std::ceil(f)]. *)
Definition ceil (f : float) : float :=
  match Prim2SF f with
  | S754_finite s m e =>
      if e <? 0 then
        let q := Z.shiftl (Z.pos m) e in
        if s then PrimFloat.opp (of_int q)
        else of_int (if Z.shiftl q (- e) =? Z.pos m then q else q + 1)
      else f
  | _ => f
  end.

(** [std::clamp(v, lo, hi)] on [double]. *)
Definition clamp (v lo hi : float) : float :=
  if PrimFloat.ltb v lo then lo
  else if PrimFloat.ltb hi v then hi else v.

End Double.

(** ** The SSE2 intrinsics the filters use

    A [__m128i] is its sixteen byte lanes, lowest address first. *)

Module Sse2.

Definition m128i : Type := list uchar.

(** [_mm_set1_epi8(b)]. *)
Definition _mm_set1_epi8 (b : uchar) : m128i := replicate 16 b.

(** [_mm_loadl_epi64(p + off)]: the low 64 bits come from memory, the high
    64 bits are zero. *)
Definition _mm_loadl_epi64 (p : list uchar) (off : Z) : outcome m128i :=
  lo ← load_n 8 p off; mret (lo ++ replicate 8 Byte.x00).

(** [_mm_storel_epi64(p + off, v)]: the low 64 bits go to memory. *)
Definition _mm_storel_epi64 (p : list uchar) (off : Z) (v : m128i)
    : outcome (list uchar) :=
  store_n p off (take 8 v).

(** [_mm_loadu_si128(p + off)]. *)
Definition _mm_loadu_si128 (p : list uchar) (off : Z) : outcome m128i :=
  load_n 16 p off.

(** [_mm_storeu_si128(p + off, v)]. *)
Definition _mm_storeu_si128 (p : list uchar) (off : Z) (v : m128i)
    : outcome (list uchar) :=
  store_n p off (take 16 v).

(** [_mm_sub_epi8(a, b)]: lane-wise 8-bit subtraction, wrapping. *)
Definition _mm_sub_epi8 (a b : m128i) : m128i :=
  zip_with (fun x y => to_uchar (uchar_val x - uchar_val y)) a b.

End Sse2.

Import Sse2.

(** ** The filters *)

Module Filters.

(** The expression
    [static_cast<unsigned char>((77 * r + 150 * g + 29 * b + 128) >> 8)];
    the operands are promoted to [int] and the sum is at most 65408. *)
Definition luma (r g b : uchar) : uchar :=
  to_uchar (Z.shiftr (77 * uchar_val r + 150 * uchar_val g
                      + 29 * uchar_val b + 128) 8).

(** The body of the inner loop over [j] of the grouped path. *)
Definition greyscale_lane (src : list uchar) (i j : Z) (greys : list uchar)
    : outcome (list uchar) :=
  let idx := (i + j) * 3 in
  r ← load src idx;
  g ← load src (idx + 1);
  b ← load src (idx + 2);
  store greys j (luma r g b).

(** The body of the loop [for (; i + 8 <= pixels; i += 8)]. *)
Definition greyscale_group (src : list uchar) (i : Z) (dst : list uchar)
    : outcome (list uchar) :=
  '(_, greys) ← for_loop 8 (fun j => j <? 8) 1 (greyscale_lane src i)
                  0 (replicate 8 Byte.x00);
  v ← _mm_loadl_epi64 greys 0;
  _mm_storel_epi64 dst i v.

(** The body of the loop [for (; i < pixels; ++i)]. *)
Definition greyscale_scalar (src : list uchar) (i : Z) (dst : list uchar)
    : outcome (list uchar) :=
  let idx := i * 3 in
  r ← load src idx;
  g ← load src (idx + 1);
  b ← load src (idx + 2);
  store dst i (luma r g b).

Definition apply_greyscale_rgb_simd (bytes : list uchar)
    : outcome (list uchar) :=
  let size := Z.of_nat (length bytes) in
  if negb (size mod 3 =? 0) then Threw invalid_argument
  else
    let pixels := size / 3 in
    let output := replicate (Z.to_nat pixels) Byte.x00 in
    let fuel := Z.to_nat pixels in
    '(i, output) ← for_loop fuel (fun i => i + 8 <=? pixels) 8
                     (greyscale_group bytes) 0 output;
    '(_, output) ← for_loop fuel (fun i => i <? pixels) 1
                     (greyscale_scalar bytes) i output;
    mret output.

(** The body of the loop [for (; i + 16 <= total; i += 16)]. *)
Definition invert_group (src : list uchar) (all_ones : m128i) (i : Z)
    (dst : list uchar) : outcome (list uchar) :=
  pixels ← _mm_loadu_si128 src i;
  let inverted := _mm_sub_epi8 all_ones pixels in
  _mm_storeu_si128 dst i inverted.

(** The body of the loop [for (; i < total; ++i)]:
    [dst[i] = 255 - src[i]], the [int] difference converted back to
    [unsigned char]. *)
Definition invert_scalar (src : list uchar) (i : Z) (dst : list uchar)
    : outcome (list uchar) :=
  s ← load src i;
  store dst i (to_uchar (255 - uchar_val s)).

Definition apply_invert_rgb_simd (bytes : list uchar)
    : outcome (list uchar) :=
  let size := Z.of_nat (length bytes) in
  if negb (size mod 3 =? 0) then Threw invalid_argument
  else
    let output := replicate (length bytes) Byte.x00 in
    let total := size in
    let all_ones := _mm_set1_epi8 (to_uchar 255) in
    let fuel := length bytes in
    '(i, output) ← for_loop fuel (fun i => i + 16 <=? total) 16
                     (invert_group bytes all_ones) 0 output;
    '(_, output) ← for_loop fuel (fun i => i <? total) 1
                     (invert_scalar bytes) i output;
    mret output.

(** [get_pixel_clamped(src, x, y, width, height, channel, channels)]. *)
Definition get_pixel_clamped (src : list uchar)
    (x y width height channel channels : Z) : outcome uchar :=
  let x := clamp x 0 (int_sub width 1) in
  let y := clamp y 0 (int_sub height 1) in
  load src (int_add (int_mul (int_add (int_mul y width) x) channels) channel).

(** [std::max<int>(a, b)]: [(a < b) ? b : a]. *)
Definition int_max (a b : Z) : Z := if a <? b then b else a.

Definition channels : Z := 3.

(** The [double] literal [0.1]: the binary64 nearest to one tenth. *)
Definition tenth : float := 0x1.999999999999ap-4%float.

Section WithExp.

(** [std::exp]. *)
Variable exp : float -> float.

(** The argument of [std::exp] at index [i] of the kernel:
    [-(x * x) / (2.0 * sigma * sigma)] with [int x = i - radius]; the
    product and the negation are [int] operations. *)
Definition kernel_exponent (sigma : float) (radius i : Z) : float :=
  let x := int_sub i radius in
  (Double.of_int (int_neg (int_mul x x)) / (2 * sigma * sigma))%float.

(** The body of the loop [for (int i = 0; i < size; ++i)]. *)
Definition kernel_fill (sigma : float) (radius i : Z)
    (st : list float * float) : outcome (list float * float) :=
  let '(kernel, sum) := st in
  let value := exp (kernel_exponent sigma radius i) in
  kernel ← store kernel i value;
  mret (kernel, (sum + value)%float).

Definition generate_gaussian_kernel (sigma : float)
    : outcome (list float * Z) :=
  let radius := int_max 1 (Double.to_int (Double.ceil (sigma * 3)%float)) in
  let size := int_add (int_mul 2 radius) 1 in
  kernel ← vector_n max_size_double 0%float (size_t_of_int size);
  '(_, (kernel, sum)) ← for_loop (Z.to_nat size) (fun i => i <? size) 1
                          (kernel_fill sigma radius) 0 (kernel, 0%float);
  let kernel : list float := (fun k => (k / sum)%float) <$> kernel in
  mret (kernel, radius).

(** One step of the loop over [k] of the horizontal pass. *)
Definition horizontal_tap (kernel : list float) (radius : Z)
    (src : list uchar) (w y x c k : Z) (sum : float) : outcome float :=
  let sx := clamp (int_add x k) 0 (int_sub w 1) in
  weight ← load kernel (int_add k radius);
  v ← load src (int_add (int_mul (int_add (int_mul y w) sx) channels) c);
  mret (sum + weight * Double.of_int (uchar_val v))%float.

(** One step of the loop over [k] of the vertical pass. *)
Definition vertical_tap (kernel : list float) (radius : Z)
    (temp : list uchar) (w h y x c k : Z) (sum : float) : outcome float :=
  let sy := clamp (int_add y k) 0 (int_sub h 1) in
  weight ← load kernel (int_add k radius);
  v ← load temp (int_add (int_mul (int_add (int_mul sy w) x) channels) c);
  mret (sum + weight * Double.of_int (uchar_val v))%float.

(** The three nested loops over [y], [x] and [c], which the code writes
    once for each pass; [tap y x c k] is one step of the loop over [k], and
    the sum it leaves is stored, clamped and truncated, at
    [(y * w + x) * channels + c]. *)
Definition convolve_pass (w h radius : Z)
    (tap : Z -> Z -> Z -> Z -> float -> outcome float)
    (dst : list uchar) : outcome (list uchar) :=
  '(_, dst) ← for_loop (Z.to_nat h) (fun y => y <? h) 1 (fun y dst =>
    '(_, dst) ← for_loop (Z.to_nat w) (fun x => x <? w) 1 (fun x dst =>
      '(_, dst) ← for_loop 3 (fun c => c <? channels) 1 (fun c dst =>
        '(_, sum) ← for_loop (Z.to_nat (2 * radius + 1))
                      (fun k => k <=? radius) 1 (tap y x c)
                      (int_neg radius) 0%float;
        store dst (int_add (int_mul (int_add (int_mul y w) x) channels) c)
          (Double.to_uchar (Double.clamp sum 0 255)))
        0 dst;
      mret dst) 0 dst;
    mret dst) 0 dst;
  mret dst.

Definition apply_gaussian_rgb (bytes : list uchar)
    (width height blur_strength : Z) : outcome (list uchar) :=
  let size := Z.of_nat (length bytes) in
  if negb (size mod 3 =? 0) then Threw invalid_argument
  else
    let w := int_of_unsigned width in
    let h := int_of_unsigned height in
    let sigma := (Double.of_int blur_strength / 10)%float in
    let sigma := if PrimFloat.ltb sigma tenth then tenth else sigma in
    '(kernel, radius) ← generate_gaussian_kernel sigma;
    let temp := replicate (length bytes) Byte.x00 in
    let output := replicate (length bytes) Byte.x00 in
    temp ← convolve_pass w h radius
             (horizontal_tap kernel radius bytes w) temp;
    output ← convolve_pass w h radius
               (vertical_tap kernel radius temp w h) output;
    mret output.

End WithExp.

(** The body of the loop [for (std::size_t i = 0; i < pixels; ++i)] of the
    Laplacian. *)
Definition laplacian_grey (src : list uchar) (i : Z) (grey : list uchar)
    : outcome (list uchar) :=
  let idx := i * 3 in
  r ← load src idx;
  g ← load src (idx + 1);
  b ← load src (idx + 2);
  store grey i (luma r g b).

(** The lambda [get_grey]. *)
Definition get_grey (grey : list uchar) (w h px py : Z) : outcome Z :=
  let px := clamp px 0 (int_sub w 1) in
  let py := clamp py 0 (int_sub h 1) in
  v ← load grey (int_add (int_mul py w) px);
  mret (uchar_val v).

(** The body of the loops over [y] and [x] of the Laplacian. *)
Definition laplacian_pixel (grey : list uchar) (w h y x : Z)
    (output : list uchar) : outcome (list uchar) :=
  let sum := 0 in
  top ← get_grey grey w h x (int_sub y 1);
  let sum := int_add sum (int_mul (-1) top) in
  left ← get_grey grey w h (int_sub x 1) y;
  let sum := int_add sum (int_mul (-1) left) in
  centre ← get_grey grey w h x y;
  let sum := int_add sum (int_mul 4 centre) in
  right ← get_grey grey w h (int_add x 1) y;
  let sum := int_add sum (int_mul (-1) right) in
  bottom ← get_grey grey w h x (int_add y 1);
  let sum := int_add sum (int_mul (-1) bottom) in
  let sum := clamp (Z.abs sum) 0 255 in
  store output (int_add (int_mul y w) x) (to_uchar sum).

Definition apply_laplacian_rgb (bytes : list uchar) (width height : Z)
    : outcome (list uchar) :=
  let size := Z.of_nat (length bytes) in
  if negb (size mod 3 =? 0) then Threw invalid_argument
  else
    let w := int_of_unsigned width in
    let h := int_of_unsigned height in
    let pixels := size_t_of_int (int_mul w h) in
    grey ← vector_n max_size_uchar Byte.x00 pixels;
    '(_, grey) ← for_loop (Z.to_nat pixels) (fun i => i <? pixels) 1
                   (laplacian_grey bytes) 0 grey;
    output ← vector_n max_size_uchar Byte.x00 pixels;
    '(_, output) ← for_loop (Z.to_nat h) (fun y => y <? h) 1 (fun y output =>
      '(_, output) ← for_loop (Z.to_nat w) (fun x => x <? w) 1
                       (laplacian_pixel grey w h y) 0 output;
      mret output) 0 output;
    mret output.

End Filters.

Import Filters.

(** ** The command-line program, [main.cpp]

    The program parses its options with Boost, decodes the input with
    lodepng, runs one filter and encodes the result with lodepng.  The
    parsed options are a record, and [lodepng::decode] and
    [lodepng::encode] are parameters of the functions that call them. *)

Module Main.

Inductive Image_Filter : Set :=
| GREYSCALE
| INVERT
| GAUSSIAN
| LAPLACE.

(** The enumerators of lodepng's [LodePNGColorType] that the program
    names. *)
Inductive LodePNGColorType : Set :=
| LCT_GREY
| LCT_RGB
| LCT_GREY_ALPHA.

(** What ends a call without a value: the exceptions the program throws
    itself, and whatever ended a call to a filter. *)
Inductive failure : Type :=
| invalid_image_filter  (* std::invalid_argument("Invalid image filter") *)
| invalid_image_format  (* std::invalid_argument("Invalid image format") *)
| encoding_error (error : Z)  (* std::runtime_error("Error encoding ...") *)
| thrown_by_filter (e : exception)
| out_of_bounds
| out_of_fuel.

Inductive result (A : Type) : Type :=
| Ok (a : A)
| Failed (f : failure).

Arguments Ok {A} a.
Arguments Failed {A} f.

#[export] Instance result_ret : MRet result := @Ok.

#[export] Instance result_bind : MBind result := fun A B k m =>
  match m with
  | Ok a => k a
  | Failed f => Failed f
  end.

(** A call to a filter inside the program. *)
Definition call {A} (o : outcome A) : result A :=
  match o with
  | Returned a => Ok a
  | Threw e => Failed (thrown_by_filter e)
  | OutOfBounds => Failed out_of_bounds
  | OutOfFuel => Failed out_of_fuel
  end.

Definition filter_to_image_filter (filter : string) : result Image_Filter :=
  if String.eqb filter "greyscale" then Ok GREYSCALE
  else if String.eqb filter "invert" then Ok INVERT
  else if String.eqb filter "gaussian" then Ok GAUSSIAN
  else if String.eqb filter "laplace" then Ok LAPLACE
  else Failed invalid_image_filter.

Definition format_to_color_type (format : string) : result LodePNGColorType :=
  if String.eqb format "rgb" then Ok LCT_RGB
  else if String.eqb format "alpha" then Ok LCT_GREY_ALPHA
  else if String.eqb format "grey" then Ok LCT_GREY
  else Failed invalid_image_format.

(** The options after [po::notify]: [filter] and [blur_strength] hold their
    defaults when absent, [input_file] and [output_file] are [None] when
    [vm.count] is 0. *)
Record options : Type := {
  help : bool;
  filter : string;
  input_file : option string;
  output_file : option string;
  blur_strength : Z
}.

Definition EXIT_SUCCESS : Z := 0.
Definition EXIT_FAILURE : Z := 1.

Section WithLibraries.

(** [std::exp]. *)
Variable exp : float -> float.

(** [lodepng::decode(bytes, width, height, filename, colortype)]: the
    width, the height and the samples it leaves; its error code is not
    looked at. *)
Variable decode : string -> LodePNGColorType -> Z * Z * list uchar.

(** [lodepng::encode(encoded, bytes, width, height, colortype)]: its error
    code and the bytes of the PNG file. *)
Variable encode :
  list uchar -> Z -> Z -> LodePNGColorType -> Z * list uchar.

Definition get_image_bytes (filename format : string)
    : result (Z * Z * list uchar) :=
  colortype ← format_to_color_type format;
  mret (decode filename colortype).

(** The result is the file that [lodepng::save_file] is asked to write:
    its name and its bytes. *)
Definition write_image_bytes (bytes : list uchar) (width height : Z)
    (filename format : string) : result (string * list uchar) :=
  colortype ← format_to_color_type format;
  let '(error, encoded) := encode bytes width height colortype in
  if negb (error =? 0) then Failed (encoding_error error)
  else mret (filename, encoded).

(** The chain of [if (filter == ...)] of [main]: the filtered samples and
    [output_format], which is the empty string in the last branch. *)
Definition filtered (filter : string) (bytes : list uchar)
    (width height blur_strength : Z) : result (list uchar * string) :=
  if String.eqb filter "greyscale" then
    out ← call (apply_greyscale_rgb_simd bytes); mret (out, "grey"%string)
  else if String.eqb filter "invert" then
    out ← call (apply_invert_rgb_simd bytes); mret (out, "rgb"%string)
  else if String.eqb filter "gaussian" then
    out ← call (apply_gaussian_rgb exp bytes width height blur_strength);
    mret (out, "rgb"%string)
  else if String.eqb filter "laplace" then
    out ← call (apply_laplacian_rgb bytes width height);
    mret (out, "grey"%string)
  else mret (bytes, ""%string).

(** [main] from the parsed options on: the exit status and the file
    written, if any. *)
Definition main (o : options) : result (Z * option (string * list uchar)) :=
  if help o then mret (EXIT_SUCCESS, None)
  else
    match input_file o with
    | None => mret (EXIT_FAILURE, None)
    | Some input_file =>
        let output_file :=
          match output_file o with
          | Some output_file => output_file
          | None => String.append "out-" input_file
          end in
        '(width, height, bytes) ← get_image_bytes input_file "rgb";
        '(filtered, output_format) ←
          filtered (filter o) bytes width height (blur_strength o);
        file ← write_image_bytes filtered width height output_file
                 output_format;
        mret (EXIT_SUCCESS, Some file)
    end.

End WithLibraries.

End Main.

(** ** The transforms as the specification words them

    These definitions follow the text of the specification, not the code;
    the theorems below compare the code with them. *)

Module Spec.

(** Greyscale Transform: [Y = (77·R + 150·G + 29·B + 128) >> 8]. *)
Definition luminance (R G B : Z) : Z :=
  Z.shiftr (77 * R + 150 * G + 29 * B + 128) 8.

(** One output sample per source pixel, one pixel at a time. *)
Fixpoint greyscale (B : list uchar) : list uchar :=
  match B with
  | r :: g :: b :: rest =>
      to_uchar (luminance (uchar_val r) (uchar_val g) (uchar_val b))
        :: greyscale rest
  | _ => []
  end.

(** Invert Transform, per sample: [out = 255 - in]. *)
Definition invert_sample (s : uchar) : uchar := to_uchar (255 - uchar_val s).

Definition invert (B : list uchar) : list uchar := invert_sample <$> B.

(** Edge-clamped sampling: an out-of-range coordinate is replaced by the
    nearest valid one, in [[0, hi]]. *)
Definition nearest (v hi : Z) : Z := Z.max 0 (Z.min hi v).

(** The sample of the 1-channel buffer [grey] at the edge-clamped
    coordinates [(x, y)], row-major. *)
Definition grey_at (grey : list uchar) (w h x y : Z) : Z :=
  match grey !! Z.to_nat (nearest y (h - 1) * w + nearest x (w - 1)) with
  | Some v => uchar_val v
  | None => 0
  end.

(** Laplacian Transform, per pixel:
    [sum = 4·center - top - bottom - left - right] and the output sample
    is [clamp(|sum|, 0, 255)]. *)
Definition laplacian_sample (grey : list uchar) (w h x y : Z) : Z :=
  let sum := 4 * grey_at grey w h x y
             - grey_at grey w h x (y - 1) - grey_at grey w h x (y + 1)
             - grey_at grey w h (x - 1) y - grey_at grey w h (x + 1) y in
  Z.max 0 (Z.min 255 (Z.abs sum)).

(** The edge map of [B]: greyscale first, then the stencil at every pixel
    in row-major order. *)
Definition laplacian (B : list uchar) (w h : Z) : list uchar :=
  let grey := greyscale B in
  (fun i => to_uchar (laplacian_sample grey w h (i mod w) (i / w)))
    <$> seqZ 0 (w * h).

(** Separable Blur: [sigma = strength / 10.0], floored to a minimum of
    0.1. *)
Definition sigma (strength : Z) : float :=
  let s := (Double.of_int strength / 10)%float in
  if PrimFloat.ltb s tenth then tenth else s.

(** Kernel Generator: [radius = max(1, ceil(3·sigma))]. *)
Definition kernel_radius (sigma : float) : Z :=
  Z.max 1 (Double.to_int (Double.ceil (sigma * 3)%float)).

(** [weight(i) = exp(-(i²)/(2·sigma²))] for the offset [i], before
    normalisation; the argument of [exp]. *)
Definition kernel_exponent (sigma : float) (i : Z) : float :=
  (Double.of_int (- (i * i)) / (2 * sigma * sigma))%float.

(** The weights for the offsets [-radius .. radius], each divided by the
    sum of all of them. *)
Definition kernel (exp : float -> float) (sigma : float) : list float :=
  let radius := kernel_radius sigma in
  let weights := (fun i => exp (kernel_exponent sigma i))
                   <$> seqZ (- radius) (2 * radius + 1) in
  let sum := fold_left PrimFloat.add weights 0%float in
  (fun v => (v / sum)%float) <$> weights.

(** The weight at index [i] of a kernel. *)
Definition weight (kernel : list float) (i : Z) : float :=
  match kernel !! Z.to_nat i with
  | Some v => v
  | None => 0%float
  end.

(** The sample of channel [c] of pixel [(x, y)] in a 3-channel buffer. *)
Definition sample (p : list uchar) (w x y c : Z) : Z :=
  match p !! Z.to_nat ((y * w + x) * 3 + c) with
  | Some v => uchar_val v
  | None => 0
  end.

(** One output of a 1-D convolution: the sum over the offsets
    [-radius .. radius], in floating point, then clamped to [[0, 255]] and
    truncated to an integer sample. *)
Definition convolve (kernel : list float) (radius : Z) (along : Z -> Z)
    : uchar :=
  let sum :=
    fold_left
      (fun sum k =>
         (sum + weight kernel (k + radius) * Double.of_int (along k))%float)
      (seqZ (- radius) (2 * radius + 1)) 0%float in
  Double.to_uchar (Double.clamp sum 0 255).

(** A buffer of the shape of the image whose sample of channel [c] of
    pixel [(x, y)] is [value x y c]. *)
Definition pass (w h : Z) (value : Z -> Z -> Z -> uchar) : list uchar :=
  (fun i => value (i / 3 mod w) (i / 3 / w) (i mod 3))
    <$> seqZ 0 (w * h * 3).

(** Horizontal pass: along the x-axis, sampling the original buffer with
    x-coordinates clamped to [[0, width-1]]. *)
Definition horizontal (kernel : list float) (radius : Z) (B : list uchar)
    (w h : Z) : list uchar :=
  pass w h (fun x y c =>
    convolve kernel radius (fun k => sample B w (nearest (x + k) (w - 1)) y c)).

(** Vertical pass: along the y-axis, sampling the intermediate buffer with
    y-coordinates clamped to [[0, height-1]]. *)
Definition vertical (kernel : list float) (radius : Z) (T : list uchar)
    (w h : Z) : list uchar :=
  pass w h (fun x y c =>
    convolve kernel radius (fun k => sample T w x (nearest (y + k) (h - 1)) c)).

Definition blur (kernel : list float) (radius : Z) (B : list uchar)
    (w h : Z) : list uchar :=
  vertical kernel radius (horizontal kernel radius B w h) w h.

(** A uniform-colour image of [n] pixels. *)
Fixpoint flat_image (n : nat) (r g b : uchar) : list uchar :=
  match n with
  | O => []
  | S n' => r :: g :: b :: flat_image n' r g b
  end.

(** A grey buffer as an RGB buffer: every sample three times. *)
Definition grey_as_rgb (G : list uchar) : list uchar :=
  G ≫= (fun v => [v; v; v]).

(** "Unchanged (within rounding)": the output has the samples of the
    input, each up to the one unit that the truncation of a floating-point
    sum can cost. *)
Definition unchanged_within_rounding (B out : list uchar) : Prop :=
  length out = length B
  /\ forall (i : nat) (s o : uchar),
       B !! i = Some s -> out !! i = Some o ->
       Z.abs (uchar_val o - uchar_val s) <= 1.

(** "A scalar loop producing identical byte values is a fully conforming
    implementation": the one-at-a-time loops of the code, run over the
    whole buffer with no grouped loop before them. *)
Definition greyscale_one_at_a_time (B : list uchar) : outcome (list uchar) :=
  let pixels := Z.of_nat (length B) / 3 in
  '(_, output) ← for_loop (Z.to_nat pixels) (fun i => i <? pixels) 1
                   (greyscale_scalar B) 0
                   (replicate (Z.to_nat pixels) Byte.x00);
  mret output.

Definition invert_one_at_a_time (B : list uchar) : outcome (list uchar) :=
  let total := Z.of_nat (length B) in
  '(_, output) ← for_loop (length B) (fun i => i <? total) 1
                   (invert_scalar B) 0 (replicate (length B) Byte.x00);
  mret output.

End Spec.

(** ** Concrete inputs *)

Module Examples.

(** One red pixel, [[255, 0, 0]]. *)
Definition red_pixel : list uchar := [Byte.xff; Byte.x00; Byte.x00].

Definition white_pixel : list uchar := [Byte.xff; Byte.xff; Byte.xff].

Definition black_pixel : list uchar := [Byte.x00; Byte.x00; Byte.x00].

(** A buffer of one sample. *)
Definition one_sample : list uchar := [Byte.x01].

(** Nineteen pixels: two full groups of eight and a remainder of three
    for greyscale, three full groups of sixteen and a remainder of nine
    for invert. *)
Definition nineteen_pixels : list uchar :=
  to_uchar <$> seqZ 0 57.

(** The samples of a black RGB image of 2^32 pixels: 65536 x 65536, or
    2147483648 x 2. *)
Definition black_2pow32 : list uchar :=
  replicate (Z.to_nat (3 * 2 ^ 32)) Byte.x00.

End Examples.

(** ** Properties of the run-time model *)

Section Uchar.

Lemma uchar_val_range (b : uchar) : 0 <= uchar_val b < 256.
Proof.
  unfold uchar_val. pose proof (Byte.to_N_bounded b). lia.
Qed.

Lemma uchar_val_to_uchar (z : Z) : uchar_val (to_uchar z) = z mod 256.
Proof.
  unfold to_uchar, uchar_val.
  assert (Hr : 0 <= z mod 256 < 256) by (apply Z.mod_pos_bound; lia).
  destruct (Byte.of_N (Z.to_N (z mod 256))) as [b|] eqn:E.
  - apply Byte.to_of_N in E. rewrite E. lia.
  - apply Byte.of_N_None_iff in E. lia.
Qed.

Lemma to_uchar_val (b : uchar) : to_uchar (uchar_val b) = b.
Proof.
  unfold to_uchar, uchar_val.
  pose proof (Byte.to_N_bounded b).
  rewrite Z.mod_small by lia.
  rewrite N2Z.id, Byte.of_to_N. reflexivity.
Qed.

Lemma uchar_val_inj (a b : uchar) : uchar_val a = uchar_val b -> a = b.
Proof.
  intros H. rewrite <- (to_uchar_val a), <- (to_uchar_val b), H. reflexivity.
Qed.

End Uchar.

Section Outcomes.

Context {A B : Type}.

Lemma bind_Returned (a : A) (k : A -> outcome B) : (Returned a ≫= k) = k a.
Proof. reflexivity. Qed.

Lemma load_lookup (p : list A) (n : nat) (a : A) :
  p !! n = Some a -> load p (Z.of_nat n) = Returned a.
Proof.
  intros H. unfold load.
  destruct (Z.ltb_spec (Z.of_nat n) 0); [lia|].
  rewrite Nat2Z.id, H. reflexivity.
Qed.

Lemma load_inside (p : list A) (i : Z) :
  0 <= i < Z.of_nat (length p) ->
  exists a, p !! Z.to_nat i = Some a /\ load p i = Returned a.
Proof.
  intros H.
  destruct (lookup_lt_is_Some_2 p (Z.to_nat i)) as [a Ha]; [lia|].
  exists a. split; [exact Ha|]. unfold load.
  destruct (Z.ltb_spec i 0); [lia|]. rewrite Ha. reflexivity.
Qed.

Lemma load_outside (p : list A) (i : Z) :
  i < 0 \/ Z.of_nat (length p) <= i -> load p i = OutOfBounds.
Proof.
  intros H. unfold load.
  destruct (Z.ltb_spec i 0); [reflexivity|].
  rewrite (lookup_ge_None_2 p (Z.to_nat i)) by lia. reflexivity.
Qed.

Lemma store_inside (p : list A) (i : Z) (v : A) :
  0 <= i < Z.of_nat (length p) ->
  store p i v = Returned (<[Z.to_nat i := v]> p).
Proof.
  intros H. unfold store.
  destruct (Z.leb_spec 0 i); [|lia].
  destruct (Z.ltb_spec i (Z.of_nat (length p))); [|lia].
  reflexivity.
Qed.

Lemma load_n_inside (n : nat) (p : list A) (off : nat) :
  (off + n <= length p)%nat ->
  load_n n p (Z.of_nat off) = Returned (take n (drop off p)).
Proof.
  intros H. unfold load_n.
  destruct (Z.leb_spec 0 (Z.of_nat off)); [|lia].
  destruct (Z.leb_spec (Z.of_nat off + Z.of_nat n) (Z.of_nat (length p)));
    [|lia].
  rewrite Nat2Z.id. reflexivity.
Qed.

Lemma store_n_inside (p : list A) (off : nat) (vs : list A) :
  (off + length vs <= length p)%nat ->
  store_n p (Z.of_nat off) vs
  = Returned (take off p ++ vs ++ drop (off + length vs) p).
Proof.
  intros H. unfold store_n.
  destruct (Z.leb_spec 0 (Z.of_nat off)); [|lia].
  destruct (Z.leb_spec (Z.of_nat off + Z.of_nat (length vs))
              (Z.of_nat (length p))); [|lia].
  rewrite Nat2Z.id. reflexivity.
Qed.

End Outcomes.

Section Loops.

Context {St : Type}.

(** The invariant rule for a counting loop
    [for (; i + st <= limit; i += st)]: an invariant kept by every
    iteration holds at exit, and the loop leaves by its condition when the
    fuel covers the iterations. *)
Lemma for_loop_inv (P : Z -> St -> Prop) (cond : Z -> bool) (st limit : Z)
    (body : Z -> St -> outcome St) :
  0 < st ->
  (forall i, cond i = (i + st <=? limit)) ->
  (forall i s, i + st <= limit -> P i s ->
     exists s', body i s = Returned s' /\ P (i + st) s') ->
  forall (fuel : nat) (lo : Z) (s : St),
    limit - lo < st * (Z.of_nat fuel + 1) -> P lo s ->
    exists i' s',
      for_loop fuel cond st body lo s = Returned (i', s')
      /\ P i' s' /\ lo <= i' /\ limit < i' + st /\ (lo < i' -> i' <= limit).
Proof.
  intros Hst Hcond Hbody.
  induction fuel as [|fuel IH]; intros lo s Hfuel HP; simpl;
    rewrite Hcond; destruct (Z.leb_spec (lo + st) limit) as [Hle|Hgt].
  - lia.
  - exists lo, s. repeat split; auto; lia.
  - destruct (Hbody lo s Hle HP) as (s' & -> & HP').
    rewrite bind_Returned.
    destruct (IH (lo + st) s') as (i' & s'' & -> & HP'' & ? & ? & ?);
      [nia|assumption|].
    exists i', s''. repeat split; auto; lia.
  - exists lo, s. repeat split; auto; lia.
Qed.

(** The same rule for [for (; i < hi; ++i)] entered with [lo <= hi]. *)
Lemma for_loop_upto (P : Z -> St -> Prop) (hi : Z)
    (body : Z -> St -> outcome St) (fuel : nat) (lo : Z) (s : St) :
  lo <= hi -> hi - lo <= Z.of_nat fuel ->
  (forall i s, lo <= i < hi -> P i s ->
     exists s', body i s = Returned s' /\ P (i + 1) s') ->
  P lo s ->
  exists s',
    for_loop fuel (fun i => i <? hi) 1 body lo s = Returned (hi, s')
    /\ P hi s'.
Proof.
  intros Hlo Hfuel Hbody HP.
  assert (Hcond : forall i, (i <? hi) = (i + 1 <=? hi)).
  { intros i. destruct (Z.ltb_spec i hi), (Z.leb_spec (i + 1) hi);
      auto; lia. }
  assert (Hstep : forall i s, i + 1 <= hi -> lo <= i /\ P i s ->
            exists s', body i s = Returned s' /\ (lo <= i + 1 /\ P (i + 1) s')).
  { intros i s0 Hi [Hi' HP0].
    destruct (Hbody i s0) as (s1 & E & HP1); [lia|assumption|].
    exists s1. repeat split; auto; lia. }
  destruct (for_loop_inv (fun i s => lo <= i /\ P i s)
              (fun i => i <? hi) 1 hi body ltac:(lia) Hcond Hstep
              fuel lo s) as (i' & s' & E & [_ HP'] & ? & ? & ?).
  - lia.
  - split; [lia|assumption].
  - assert (i' = hi) as -> by lia. exists s'. auto.
Qed.

(** A loop whose first iteration leaves an object's bounds does so too. *)
Lemma for_loop_first_out_of_bounds (fuel : nat) (cond : Z -> bool)
    (st : Z) (body : Z -> St -> outcome St) (i : Z) (s : St) :
  (0 < fuel)%nat -> cond i = true -> body i s = OutOfBounds ->
  for_loop fuel cond st body i s = OutOfBounds.
Proof.
  intros Hfuel Hc Hb. destruct fuel as [|fuel]; [lia|].
  simpl. rewrite Hc, Hb. reflexivity.
Qed.

End Loops.

Section Filling.

Context {A : Type}.

(** Writing the next element of [r] into a buffer that holds the first [j]
    elements of [r] followed by filler. *)
Lemma fill_step (r : list A) (d : A) (n j : nat) (v : A) :
  length r = n -> r !! j = Some v ->
  <[j := v]> (take j r ++ replicate (n - j) d)
  = take (S j) r ++ replicate (n - S j) d.
Proof.
  intros Hn Hv. pose proof (lookup_lt_Some _ _ _ Hv) as Hj.
  rewrite insert_app_r_alt by (rewrite length_take; lia).
  rewrite length_take, Nat.min_l, Nat.sub_diag by lia.
  replace (n - j)%nat with (S (n - S j)) by lia. simpl.
  rewrite (take_S_r _ _ _ Hv), <- app_assoc. reflexivity.
Qed.

Lemma fill_start (r : list A) (d : A) (n : nat) :
  replicate n d = take 0 r ++ replicate (n - 0) d.
Proof. rewrite Nat.sub_0_r. reflexivity. Qed.

Lemma fill_end (r : list A) (d : A) (n : nat) :
  length r = n -> take n r ++ replicate (n - n) d = r.
Proof.
  intros Hn. rewrite Nat.sub_diag, app_nil_r, take_ge by lia. reflexivity.
Qed.

(** Writing the next [k] elements of [r] at once. *)
Lemma fill_block (r : list A) (d : A) (n j k : nat) :
  length r = n -> (j + k <= n)%nat ->
  take j (take j r ++ replicate (n - j) d) ++ take k (drop j r)
    ++ drop (j + k) (take j r ++ replicate (n - j) d)
  = take (j + k) r ++ replicate (n - (j + k)) d.
Proof.
  intros Hn Hk.
  rewrite take_app_length' by (rewrite length_take; lia).
  rewrite drop_app_ge by (rewrite length_take; lia).
  rewrite length_take, Nat.min_l by lia.
  rewrite drop_replicate.
  replace (n - j - (j + k - j))%nat with (n - (j + k))%nat by lia.
  rewrite app_assoc. f_equal.
  rewrite <- (take_drop j (take (j + k) r)).
  rewrite take_take, Nat.min_l by lia.
  f_equal. rewrite <- take_drop_commute. reflexivity.
Qed.

End Filling.

(** ** Greyscale *)

Section Greyscale.

Lemma luma_luminance (r g b : uchar) :
  luma r g b
  = to_uchar (Spec.luminance (uchar_val r) (uchar_val g) (uchar_val b)).
Proof. reflexivity. Qed.

Lemma luminance_range (R G B : Z) :
  0 <= R < 256 -> 0 <= G < 256 -> 0 <= B < 256 ->
  0 <= Spec.luminance R G B < 256.
Proof.
  intros HR HG HB. unfold Spec.luminance.
  rewrite Z.shiftr_div_pow2 by lia. change (2 ^ 8) with 256.
  split; [apply Z.div_pos; lia | apply Z.div_lt_upper_bound; lia].
Qed.

Lemma uchar_val_luma (r g b : uchar) :
  uchar_val (luma r g b)
  = Spec.luminance (uchar_val r) (uchar_val g) (uchar_val b).
Proof.
  rewrite luma_luminance, uchar_val_to_uchar.
  apply Z.mod_small, luminance_range; apply uchar_val_range.
Qed.

Lemma list_ind3 {A} (P : list A -> Prop) :
  P [] -> (forall a, P [a]) -> (forall a b, P [a; b]) ->
  (forall a b c l, P l -> P (a :: b :: c :: l)) ->
  forall l, P l.
Proof.
  intros H0 H1 H2 H3. fix IH 1.
  intros [|a [|b [|c l]]];
    [exact H0 | apply H1 | apply H2 | apply H3, IH].
Qed.

Lemma greyscale_length (B : list uchar) :
  Z.of_nat (length (Spec.greyscale B)) = Z.of_nat (length B) / 3.
Proof.
  induction B as [| a | a b | a b c l IH] using list_ind3;
    try reflexivity.
  cbn [Spec.greyscale length].
  replace (Z.of_nat (S (S (S (length l)))))
    with (Z.of_nat (length l) + 1 * 3) by lia.
  rewrite Z.div_add by lia. lia.
Qed.

(** The three samples of pixel [p] and its sample in the reference
    output. *)
Lemma greyscale_pixel (B : list uchar) (p : nat) :
  (3 * p + 2 < length B)%nat ->
  exists r g b,
    B !! (3 * p)%nat = Some r /\ B !! (3 * p + 1)%nat = Some g
    /\ B !! (3 * p + 2)%nat = Some b
    /\ Spec.greyscale B !! p = Some (luma r g b).
Proof.
  revert B. induction p as [|p IH]; intros [|r [|g [|b rest]]] H;
    simpl in H; try lia.
  - exists r, g, b. repeat split.
  - destruct (IH rest) as (r' & g' & b' & Hr & Hg & Hb & Hy); [lia|].
    exists r', g', b'.
    replace (3 * S p)%nat with (S (S (S (3 * p)))) by lia.
    repeat split; assumption.
Qed.

(** Reading pixel [p] the way both paths do. *)
Lemma read_pixel {X} (B : list uchar) (p : nat) (idx : Z) (v : uchar)
    (k : uchar -> outcome X) :
  (3 * p + 2 < length B)%nat -> idx = Z.of_nat p * 3 ->
  Spec.greyscale B !! p = Some v ->
  (r ← load B idx; g ← load B (idx + 1); b ← load B (idx + 2);
   k (luma r g b)) = k v.
Proof.
  intros Hp -> Hv.
  destruct (greyscale_pixel B p Hp) as (r & g & b & Hr & Hg & Hb & Hy).
  replace (Z.of_nat p * 3) with (Z.of_nat (3 * p)) by lia.
  replace (Z.of_nat (3 * p) + 1) with (Z.of_nat (3 * p + 1)) by lia.
  replace (Z.of_nat (3 * p) + 2) with (Z.of_nat (3 * p + 2)) by lia.
  rewrite (load_lookup _ _ _ Hr), bind_Returned.
  rewrite (load_lookup _ _ _ Hg), bind_Returned.
  rewrite (load_lookup _ _ _ Hb), bind_Returned.
  congruence.
Qed.

Variable B : list uchar.
Variable n : nat.
Hypothesis size_B : length B = (3 * n)%nat.

Let ref := Spec.greyscale B.

Lemma ref_length : length ref = n.
Proof using size_B.
  pose proof (greyscale_length B) as H. fold ref in H.
  rewrite size_B in H.
  replace (Z.of_nat (3 * n)) with (Z.of_nat n * 3) in H by lia.
  rewrite Z.div_mul in H by lia. lia.
Qed.

Lemma greyscale_scalar_step (i : nat) :
  (i < n)%nat ->
  greyscale_scalar B (Z.of_nat i) (take i ref ++ replicate (n - i) Byte.x00)
  = Returned (take (S i) ref ++ replicate (n - S i) Byte.x00).
Proof using size_B.
  intros Hi. pose proof ref_length as Hn.
  destruct (lookup_lt_is_Some_2 ref i) as [v Hv]; [lia|].
  unfold greyscale_scalar.
  rewrite (read_pixel B i _ v) by (auto; lia).
  rewrite store_inside
    by (rewrite length_app, length_take, length_replicate; lia).
  rewrite Nat2Z.id, (fill_step ref _ n i v) by assumption. reflexivity.
Qed.

Lemma greyscale_group_step (i : nat) :
  (i + 8 <= n)%nat ->
  greyscale_group B (Z.of_nat i) (take i ref ++ replicate (n - i) Byte.x00)
  = Returned (take (i + 8) ref ++ replicate (n - (i + 8)) Byte.x00).
Proof using size_B.
  intros Hi. pose proof ref_length as Hn.
  set (blk := take 8 (drop i ref)).
  assert (Hblk : length blk = 8%nat)
    by (unfold blk; rewrite length_take, length_drop; lia).
  unfold greyscale_group.
  destruct (for_loop_upto
              (fun j greys =>
                 0 <= j <= 8
                 /\ greys = take (Z.to_nat j) blk
                            ++ replicate (8 - Z.to_nat j) Byte.x00)
              8 (greyscale_lane B (Z.of_nat i)) 8 0
              (replicate 8 Byte.x00)) as (greys & -> & _ & ->);
    try lia.
  - intros j greys Hj [_ ->].
    destruct (lookup_lt_is_Some_2 blk (Z.to_nat j)) as [v Hv]; [lia|].
    assert (Hv' : ref !! (i + Z.to_nat j)%nat = Some v).
    { unfold blk in Hv. rewrite lookup_take_lt in Hv by lia.
      rewrite lookup_drop in Hv. exact Hv. }
    exists (take (S (Z.to_nat j)) blk
            ++ replicate (8 - S (Z.to_nat j)) Byte.x00).
    split.
    + unfold greyscale_lane.
      rewrite (read_pixel B (i + Z.to_nat j) _ v) by (auto; lia).
      rewrite store_inside
        by (rewrite length_app, length_take, length_replicate; lia).
      rewrite (fill_step blk _ 8 (Z.to_nat j) v) by assumption.
      reflexivity.
    + split; [lia|].
      replace (Z.to_nat (j + 1)) with (S (Z.to_nat j)) by lia.
      reflexivity.
  - split; [lia|]. reflexivity.
  - rewrite bind_Returned. change (Z.to_nat 8) with 8%nat.
    rewrite (fill_end blk _ 8 Hblk).
    unfold _mm_loadl_epi64, _mm_storel_epi64.
    change (load_n 8 blk 0) with (load_n 8 blk (Z.of_nat 0)).
    rewrite (load_n_inside 8 blk 0) by lia.
    rewrite bind_Returned, drop_0.
    rewrite (take_ge blk 8) by lia.
    unfold mret, outcome_ret. rewrite bind_Returned.
    rewrite (take_app_length' blk _ 8 (eq_sym Hblk)).
    rewrite store_n_inside
      by (rewrite length_app, length_take, length_replicate, Hblk; lia).
    rewrite Hblk. unfold blk.
    f_equal. exact (fill_block ref Byte.x00 n i 8 Hn Hi).
Qed.

(** The one-at-a-time loop, entered at [i] with the first [i] samples
    written, completes the reference output. *)
Lemma greyscale_scalar_loop (i : Z) :
  0 <= i <= Z.of_nat n ->
  for_loop n (fun i => i <? Z.of_nat n) 1 (greyscale_scalar B) i
    (take (Z.to_nat i) ref ++ replicate (n - Z.to_nat i) Byte.x00)
  = Returned (Z.of_nat n, ref).
Proof using size_B.
  intros Hi. pose proof ref_length as Hn.
  destruct (for_loop_upto
              (fun (i : Z) (s : list uchar) =>
                 s = take (Z.to_nat i) ref
                     ++ replicate (n - Z.to_nat i) Byte.x00)
              (Z.of_nat n) (greyscale_scalar B) n i
              (take (Z.to_nat i) ref
               ++ replicate (n - Z.to_nat i) Byte.x00))
    as (s & -> & ->); try lia.
  - intros j s Hj ->.
    exists (take (S (Z.to_nat j)) ref
            ++ replicate (n - S (Z.to_nat j)) Byte.x00).
    split.
    + rewrite <- (Z2Nat.id j) at 1 by lia.
      apply greyscale_scalar_step. lia.
    + replace (Z.to_nat (j + 1)) with (S (Z.to_nat j)) by lia.
      reflexivity.
  - reflexivity.
  - rewrite Nat2Z.id, (fill_end ref _ n Hn). reflexivity.
Qed.

(** The grouped loop followed by the one-at-a-time loop writes the
    reference output. *)
Lemma greyscale_loops :
  apply_greyscale_rgb_simd B = Returned ref.
Proof using size_B.
  pose proof ref_length as Hn.
  unfold apply_greyscale_rgb_simd. rewrite size_B.
  replace (Z.of_nat (3 * n)) with (Z.of_nat n * 3) by lia.
  rewrite Z.mod_mul, Z.div_mul by lia. simpl negb. cbv iota.
  rewrite Nat2Z.id.
  pose (P := fun (i : Z) (s : list uchar) =>
               0 <= i <= Z.of_nat n
               /\ s = take (Z.to_nat i) ref
                      ++ replicate (n - Z.to_nat i) Byte.x00).
  destruct (for_loop_inv P (fun i => i + 8 <=? Z.of_nat n) 8 (Z.of_nat n)
              (greyscale_group B) ltac:(lia) ltac:(reflexivity))
    with (fuel := n) (lo := 0) (s := replicate n Byte.x00)
    as (i & s & -> & [Hi ->] & _).
  - intros i s Hi [Hi0 ->].
    exists (take (Z.to_nat i + 8) ref
            ++ replicate (n - (Z.to_nat i + 8)) Byte.x00).
    split.
    + rewrite <- (Z2Nat.id i) at 1 by lia.
      apply greyscale_group_step. lia.
    + split; [lia|].
      replace (Z.to_nat (i + 8)) with (Z.to_nat i + 8)%nat by lia.
      reflexivity.
  - lia.
  - split; [lia|]. apply fill_start.
  - rewrite bind_Returned, (greyscale_scalar_loop i Hi). reflexivity.
Qed.

(** The one-at-a-time loop alone writes the reference output too. *)
Lemma greyscale_scalar_only :
  Spec.greyscale_one_at_a_time B = Returned ref.
Proof using size_B.
  unfold Spec.greyscale_one_at_a_time. rewrite size_B.
  replace (Z.of_nat (3 * n)) with (Z.of_nat n * 3) by lia.
  rewrite Z.div_mul by lia. rewrite Nat2Z.id.
  pose proof (greyscale_scalar_loop 0 ltac:(lia)) as H.
  change (Z.to_nat 0) with 0%nat in H.
  rewrite Nat.sub_0_r, take_0, app_nil_l in H.
  rewrite H. reflexivity.
Qed.

End Greyscale.

(** ** Invert *)

Section Invert.

Lemma invert_sample_val (s : uchar) :
  uchar_val (Spec.invert_sample s) = 255 - uchar_val s.
Proof.
  unfold Spec.invert_sample. rewrite uchar_val_to_uchar.
  pose proof (uchar_val_range s). apply Z.mod_small. lia.
Qed.

Lemma invert_sample_involutive (s : uchar) :
  Spec.invert_sample (Spec.invert_sample s) = s.
Proof.
  apply uchar_val_inj. rewrite !invert_sample_val. lia.
Qed.

Lemma invert_involutive (B : list uchar) : Spec.invert (Spec.invert B) = B.
Proof.
  unfold Spec.invert. rewrite <- list_fmap_compose.
  rewrite <- (list_fmap_id B) at 2. apply list_fmap_ext.
  intros _ s _. apply invert_sample_involutive.
Qed.

(** Subtracting a lane from the all-ones mask is the per-sample
    formula. *)
Lemma sub_all_ones (lanes : list uchar) :
  (length lanes <= 16)%nat ->
  _mm_sub_epi8 (_mm_set1_epi8 (to_uchar 255)) lanes = Spec.invert lanes.
Proof.
  intros H. unfold _mm_sub_epi8, _mm_set1_epi8.
  rewrite zip_with_replicate_l by assumption. reflexivity.
Qed.

Variable B : list uchar.

Let n := length B.
Let ref := Spec.invert B.

Lemma invert_ref_length : length ref = n.
Proof. apply length_fmap. Qed.

Lemma invert_scalar_step (i : nat) :
  (i < n)%nat ->
  invert_scalar B (Z.of_nat i) (take i ref ++ replicate (n - i) Byte.x00)
  = Returned (take (S i) ref ++ replicate (n - S i) Byte.x00).
Proof.
  intros Hi. pose proof invert_ref_length as Hn.
  destruct (lookup_lt_is_Some_2 B i) as [s Hs]; [exact Hi|].
  assert (Hv : ref !! i = Some (Spec.invert_sample s)).
  { unfold ref, Spec.invert. rewrite list_lookup_fmap, Hs. reflexivity. }
  unfold invert_scalar.
  rewrite (load_lookup _ _ _ Hs), bind_Returned.
  rewrite store_inside
    by (rewrite length_app, length_take, length_replicate; lia).
  rewrite Nat2Z.id. f_equal.
  exact (fill_step ref Byte.x00 n i _ Hn Hv).
Qed.

Lemma invert_group_step (i : nat) :
  (i + 16 <= n)%nat ->
  invert_group B (_mm_set1_epi8 (to_uchar 255)) (Z.of_nat i)
    (take i ref ++ replicate (n - i) Byte.x00)
  = Returned (take (i + 16) ref ++ replicate (n - (i + 16)) Byte.x00).
Proof.
  intros Hi. pose proof invert_ref_length as Hn.
  unfold invert_group, _mm_loadu_si128, _mm_storeu_si128.
  rewrite load_n_inside by exact Hi.
  rewrite bind_Returned.
  assert (Hlen : length (take 16 (drop i B)) = 16%nat)
    by (rewrite length_take, length_drop; fold n; lia).
  rewrite sub_all_ones by lia.
  unfold Spec.invert at 1. rewrite fmap_take, fmap_drop.
  fold (Spec.invert B). fold ref.
  assert (Hblk : length (take 16 (drop i ref)) = 16%nat)
    by (rewrite length_take, length_drop; lia).
  rewrite (take_ge (take 16 (drop i ref)) 16) by lia.
  rewrite store_n_inside
    by (rewrite Hblk, length_app, length_take, length_replicate; lia).
  rewrite Hblk. f_equal.
  exact (fill_block ref Byte.x00 n i 16 Hn Hi).
Qed.

(** The one-at-a-time loop, entered at [i] with the first [i] samples
    written, completes the reference output. *)
Lemma invert_scalar_loop (i : Z) :
  0 <= i <= Z.of_nat n ->
  for_loop n (fun i => i <? Z.of_nat n) 1 (invert_scalar B) i
    (take (Z.to_nat i) ref ++ replicate (n - Z.to_nat i) Byte.x00)
  = Returned (Z.of_nat n, ref).
Proof.
  intros Hi. pose proof invert_ref_length as Hn.
  destruct (for_loop_upto
              (fun (i : Z) (s : list uchar) =>
                 s = take (Z.to_nat i) ref
                     ++ replicate (n - Z.to_nat i) Byte.x00)
              (Z.of_nat n) (invert_scalar B) n i
              (take (Z.to_nat i) ref
               ++ replicate (n - Z.to_nat i) Byte.x00))
    as (s & -> & ->); try lia.
  - intros j s Hj ->.
    exists (take (S (Z.to_nat j)) ref
            ++ replicate (n - S (Z.to_nat j)) Byte.x00).
    split.
    + rewrite <- (Z2Nat.id j) at 1 by lia.
      apply invert_scalar_step. lia.
    + replace (Z.to_nat (j + 1)) with (S (Z.to_nat j)) by lia.
      reflexivity.
  - reflexivity.
  - rewrite Nat2Z.id, (fill_end ref _ n Hn). reflexivity.
Qed.

(** The grouped loop followed by the one-at-a-time loop writes the
    reference output. *)
Lemma invert_loops :
  Z.of_nat n mod 3 = 0 -> apply_invert_rgb_simd B = Returned ref.
Proof.
  intros H3. pose proof invert_ref_length as Hn.
  unfold apply_invert_rgb_simd. fold n. rewrite H3. simpl negb. cbv iota.
  pose (P := fun (i : Z) (s : list uchar) =>
               0 <= i <= Z.of_nat n
               /\ s = take (Z.to_nat i) ref
                      ++ replicate (n - Z.to_nat i) Byte.x00).
  destruct (for_loop_inv P (fun i => i + 16 <=? Z.of_nat n) 16 (Z.of_nat n)
              (invert_group B (_mm_set1_epi8 (to_uchar 255)))
              ltac:(lia) ltac:(reflexivity))
    with (fuel := n) (lo := 0) (s := replicate n Byte.x00)
    as (i & s & -> & [Hi ->] & _).
  - intros i s Hi [Hi0 ->].
    exists (take (Z.to_nat i + 16) ref
            ++ replicate (n - (Z.to_nat i + 16)) Byte.x00).
    split.
    + rewrite <- (Z2Nat.id i) at 1 by lia.
      apply invert_group_step. lia.
    + split; [lia|].
      replace (Z.to_nat (i + 16)) with (Z.to_nat i + 16)%nat by lia.
      reflexivity.
  - lia.
  - split; [lia|]. apply fill_start.
  - rewrite bind_Returned, (invert_scalar_loop i Hi). reflexivity.
Qed.

(** The one-at-a-time loop alone writes the reference output too. *)
Lemma invert_scalar_only :
  Spec.invert_one_at_a_time B = Returned ref.
Proof.
  unfold Spec.invert_one_at_a_time. fold n.
  pose proof (invert_scalar_loop 0 ltac:(lia)) as H.
  change (Z.to_nat 0) with 0%nat in H.
  rewrite Nat.sub_0_r, take_0, app_nil_l in H.
  rewrite H. reflexivity.
Qed.

End Invert.

(** ** [int] arithmetic that stays in range *)

Section IntRange.

Lemma wrap_int_small (z : Z) : INT_MIN <= z <= INT_MAX -> wrap_int z = z.
Proof.
  unfold INT_MIN, INT_MAX, wrap_int. intros H.
  rewrite Z.mod_small by lia. lia.
Qed.

Lemma wrap_int_range (z : Z) : INT_MIN <= wrap_int z <= INT_MAX.
Proof.
  unfold INT_MIN, INT_MAX, wrap_int.
  pose proof (Z.mod_pos_bound (z + 2 ^ 31) (2 ^ 32) ltac:(lia)). lia.
Qed.

Lemma int_add_small (a b : Z) :
  INT_MIN <= a + b <= INT_MAX -> int_add a b = a + b.
Proof. apply wrap_int_small. Qed.

Lemma int_sub_small (a b : Z) :
  INT_MIN <= a - b <= INT_MAX -> int_sub a b = a - b.
Proof. apply wrap_int_small. Qed.

Lemma int_mul_small (a b : Z) :
  INT_MIN <= a * b <= INT_MAX -> int_mul a b = a * b.
Proof. apply wrap_int_small. Qed.

Lemma clamp_nearest (v hi : Z) : 0 <= hi -> clamp v 0 hi = Spec.nearest v hi.
Proof.
  intros H. unfold clamp, Spec.nearest.
  destruct (Z.ltb_spec v 0); [lia|].
  destruct (Z.ltb_spec hi v); lia.
Qed.

Lemma nearest_range (v hi : Z) : 0 <= hi -> 0 <= Spec.nearest v hi <= hi.
Proof. unfold Spec.nearest. lia. Qed.

Lemma nearest_inside (v hi : Z) : 0 <= v <= hi -> Spec.nearest v hi = v.
Proof. unfold Spec.nearest. lia. Qed.

Lemma div_row_major (a b m : Z) : 0 <= b < m -> (a * m + b) / m = a.
Proof. intros H. symmetry. apply (Z.div_unique _ _ _ b); lia. Qed.

Lemma mod_row_major (a b m : Z) : 0 <= b < m -> (a * m + b) mod m = b.
Proof. intros H. symmetry. apply (Z.mod_unique _ _ a); lia. Qed.

(** A row-major index of a [w] x [h] grid. *)
Lemma grid_index (w h x y : Z) :
  0 <= x < w -> 0 <= y < h -> 0 <= y * w + x < w * h.
Proof. intros Hx Hy. nia. Qed.

End IntRange.

(** ** Laplacian, for dimensions whose product fits [int] *)

Section Laplacian.

Lemma grey_at_range (grey : list uchar) (w h x y : Z) :
  0 <= Spec.grey_at grey w h x y <= 255.
Proof.
  unfold Spec.grey_at.
  destruct (grey !! _) as [v|]; [|lia].
  pose proof (uchar_val_range v). lia.
Qed.

(** The five-term sum of the stencil never leaves the range of [int]. *)
Lemma stencil_sum (t l c r b : Z) :
  0 <= t <= 255 -> 0 <= l <= 255 -> 0 <= c <= 255 -> 0 <= r <= 255 ->
  0 <= b <= 255 ->
  int_add (int_add (int_add (int_add (int_add 0 (int_mul (-1) t))
                               (int_mul (-1) l)) (int_mul 4 c))
             (int_mul (-1) r)) (int_mul (-1) b)
  = 4 * c - t - b - l - r.
Proof.
  intros Ht Hl Hc Hr Hb.
  rewrite (int_mul_small (-1) t), (int_mul_small (-1) l),
    (int_mul_small 4 c), (int_mul_small (-1) r), (int_mul_small (-1) b)
    by (unfold INT_MIN, INT_MAX; lia).
  rewrite (int_add_small 0) by (unfold INT_MIN, INT_MAX; lia).
  rewrite (int_add_small (0 + _)) by (unfold INT_MIN, INT_MAX; lia).
  rewrite (int_add_small (0 + _ + _)) by (unfold INT_MIN, INT_MAX; lia).
  rewrite (int_add_small (0 + _ + _ + _)) by (unfold INT_MIN, INT_MAX; lia).
  rewrite (int_add_small (0 + _ + _ + _ + _))
    by (unfold INT_MIN, INT_MAX; lia).
  lia.
Qed.

Variables (w h : Z) (grey : list uchar).
Hypothesis Hw : 1 <= w.
Hypothesis Hh : 1 <= h.
Hypothesis Hfit : w * h <= INT_MAX.
Hypothesis Hgrey : Z.of_nat (length grey) = w * h.

Lemma width_fits : w <= INT_MAX.
Proof using Hw Hh Hfit. clear Hgrey. nia. Qed.

Lemma height_fits : h <= INT_MAX.
Proof using Hw Hh Hfit. clear Hgrey. nia. Qed.

(** [get_grey] reads inside [grey] and returns the edge-clamped sample. *)
Lemma get_grey_clamped (px py : Z) :
  get_grey grey w h px py = Returned (Spec.grey_at grey w h px py).
Proof using Hw Hh Hfit Hgrey.
  pose proof width_fits. pose proof height_fits.
  unfold get_grey, Spec.grey_at.
  rewrite !int_sub_small by (unfold INT_MIN, INT_MAX in *; lia).
  rewrite !clamp_nearest by lia.
  pose proof (nearest_range px (w - 1) ltac:(lia)) as Hx.
  pose proof (nearest_range py (h - 1) ltac:(lia)) as Hy.
  set (cx := Spec.nearest px (w - 1)) in *.
  set (cy := Spec.nearest py (h - 1)) in *.
  pose proof (grid_index w h cx cy ltac:(lia) ltac:(lia)) as Hi.
  rewrite int_mul_small by (unfold INT_MIN, INT_MAX in *; nia).
  rewrite int_add_small by (unfold INT_MIN, INT_MAX in *; lia).
  destruct (lookup_lt_is_Some_2 grey (Z.to_nat (cy * w + cx))) as [v Hv];
    [lia|].
  rewrite Hv. unfold load.
  destruct (Z.ltb_spec (cy * w + cx) 0); [lia|].
  rewrite Hv. reflexivity.
Qed.

Lemma laplacian_pixel_step (x y : Z) (out : list uchar) :
  0 <= x < w -> 0 <= y < h -> Z.of_nat (length out) = w * h ->
  laplacian_pixel grey w h y x out
  = Returned (<[Z.to_nat (y * w + x)
               := to_uchar (Spec.laplacian_sample grey w h x y)]> out).
Proof using Hw Hh Hfit Hgrey.
  intros Hx Hy Hout.
  pose proof width_fits. pose proof height_fits.
  pose proof (grid_index w h x y Hx Hy) as Hi.
  unfold laplacian_pixel.
  rewrite (get_grey_clamped x (int_sub y 1)), bind_Returned.
  rewrite (get_grey_clamped (int_sub x 1) y), bind_Returned.
  rewrite (get_grey_clamped x y), bind_Returned.
  rewrite (get_grey_clamped (int_add x 1) y), bind_Returned.
  rewrite (get_grey_clamped x (int_add y 1)), bind_Returned.
  rewrite stencil_sum by apply grey_at_range.
  rewrite (int_sub_small y 1), (int_sub_small x 1), (int_add_small x 1),
    (int_add_small y 1) by (unfold INT_MIN, INT_MAX in *; lia).
  rewrite (int_mul_small y w) by (unfold INT_MIN, INT_MAX in *; nia).
  rewrite (int_add_small (y * w) x) by (unfold INT_MIN, INT_MAX in *; lia).
  rewrite clamp_nearest by lia.
  rewrite store_inside by lia.
  reflexivity.
Qed.

End Laplacian.

Section LaplacianRows.

Variables (B : list uchar) (w h : Z).
Hypothesis Hw : 1 <= w.
Hypothesis Hh : 1 <= h.
Hypothesis Hfit : w * h <= INT_MAX.
Hypothesis HB : w * h * 3 = Z.of_nat (length B).

Let n := Z.to_nat (w * h).
Let grey := Spec.greyscale B.
Let res := Spec.laplacian B w h.

Lemma pixel_count : Z.of_nat n = w * h.
Proof using All. unfold n. nia. Qed.

Lemma laplacian_size_B : length B = (3 * n)%nat.
Proof using All. pose proof pixel_count. lia. Qed.

Lemma laplacian_grey_length : Z.of_nat (length grey) = w * h.
Proof using All.
  unfold grey. rewrite (ref_length B n laplacian_size_B).
  apply pixel_count.
Qed.

Lemma laplacian_res_length : length res = n.
Proof using All.
  unfold res, Spec.laplacian. rewrite length_fmap, length_seqZ.
  reflexivity.
Qed.

Lemma laplacian_res_lookup (x y : Z) :
  0 <= x < w -> 0 <= y < h ->
  res !! Z.to_nat (y * w + x)
  = Some (to_uchar (Spec.laplacian_sample grey w h x y)).
Proof using All.
  intros Hx Hy. pose proof (grid_index w h x y Hx Hy) as Hi.
  unfold res, Spec.laplacian. rewrite list_lookup_fmap.
  rewrite lookup_seqZ_lt by lia. simpl.
  rewrite Z2Nat.id by lia. rewrite Z.add_0_l.
  replace ((y * w + x) mod w) with x
    by (rewrite Z.add_comm, Z.mod_add, Z.mod_small by lia; reflexivity).
  replace ((y * w + x) / w) with y
    by (rewrite Z.add_comm, Z.div_add, Z.div_small by lia; reflexivity).
  reflexivity.
Qed.

(** The loop over [x] writes row [y]. *)
Lemma laplacian_row (y : Z) :
  0 <= y < h ->
  for_loop (Z.to_nat w) (fun x => x <? w) 1 (laplacian_pixel grey w h y) 0
    (take (Z.to_nat (y * w)) res
     ++ replicate (n - Z.to_nat (y * w)) Byte.x00)
  = Returned (w, take (Z.to_nat ((y + 1) * w)) res
                 ++ replicate (n - Z.to_nat ((y + 1) * w)) Byte.x00).
Proof using All.
  intros Hy. pose proof laplacian_res_length as Hres.
  pose proof pixel_count as Hn.
  destruct (for_loop_upto
              (fun (x : Z) (s : list uchar) =>
                 s = take (Z.to_nat (y * w + x)) res
                     ++ replicate (n - Z.to_nat (y * w + x)) Byte.x00)
              w (laplacian_pixel grey w h y) (Z.to_nat w) 0
              (take (Z.to_nat (y * w)) res
               ++ replicate (n - Z.to_nat (y * w)) Byte.x00))
    as (s & -> & ->); try lia.
  - intros x s Hx ->.
    pose proof (grid_index w h x y Hx Hy) as Hi.
    eexists. split.
    + apply (laplacian_pixel_step w h grey Hw Hh Hfit
               laplacian_grey_length x y); try lia.
      rewrite length_app, length_take, length_replicate. lia.
    + rewrite (fill_step res Byte.x00 n _ _ Hres
                 (laplacian_res_lookup x y Hx Hy)).
      replace (Z.to_nat (y * w + (x + 1)))
        with (S (Z.to_nat (y * w + x))) by lia.
      reflexivity.
  - rewrite Z.add_0_r. reflexivity.
  - replace ((y + 1) * w) with (y * w + w) by lia. reflexivity.
Qed.

(** The loops over [y] and [x] write the whole edge map. *)
Lemma laplacian_rows :
  for_loop (Z.to_nat h) (fun y => y <? h) 1
    (fun y output =>
       '(_, output) ← for_loop (Z.to_nat w) (fun x => x <? w) 1
                        (laplacian_pixel grey w h y) 0 output;
       mret output) 0 (replicate n Byte.x00)
  = Returned (h, res).
Proof using All.
  pose proof laplacian_res_length as Hres.
  pose proof pixel_count as Hn.
  destruct (for_loop_upto
              (fun (y : Z) (s : list uchar) =>
                 s = take (Z.to_nat (y * w)) res
                     ++ replicate (n - Z.to_nat (y * w)) Byte.x00)
              h
              (fun y output =>
                 '(_, output) ← for_loop (Z.to_nat w) (fun x => x <? w) 1
                                  (laplacian_pixel grey w h y) 0 output;
                 mret output)
              (Z.to_nat h) 0 (replicate n Byte.x00))
    as (s & -> & ->); try lia.
  - intros y s Hy ->. eexists. split.
    + rewrite (laplacian_row y Hy), bind_Returned. reflexivity.
    + reflexivity.
  - simpl. rewrite Nat.sub_0_r. reflexivity.
  - replace (Z.to_nat (h * w)) with n by (unfold n; f_equal; lia).
    rewrite Nat.sub_diag, app_nil_r, take_ge by lia. reflexivity.
Qed.

(** Within the range of [int] the code writes the edge map of the
    specification. *)
Lemma laplacian_in_int_range :
  apply_laplacian_rgb B w h = Returned res.
Proof using All.
  pose proof pixel_count as Hn.
  pose proof (width_fits w h Hw Hh Hfit).
  pose proof (height_fits w h Hw Hh Hfit).
  unfold apply_laplacian_rgb. rewrite <- HB.
  rewrite Z.mod_mul by lia. simpl negb. cbv iota.
  unfold int_of_unsigned.
  rewrite (wrap_int_small w), (wrap_int_small h)
    by (unfold INT_MIN, INT_MAX in *; lia).
  rewrite int_mul_small by (unfold INT_MIN, INT_MAX in *; lia).
  unfold size_t_of_int, vector_n, max_size_uchar.
  rewrite (Z.mod_small (w * h)) by (unfold INT_MAX in *; lia).
  destruct (Z.ltb_spec (2 ^ 63 - 1) (w * h));
    [unfold INT_MAX in *; lia|].
  rewrite !bind_Returned. fold n.
  change (laplacian_grey B) with (greyscale_scalar B).
  rewrite <- Hn.
  pose proof (greyscale_scalar_loop B n laplacian_size_B 0 ltac:(lia))
    as Hgrey.
  change (Z.to_nat 0) with 0%nat in Hgrey.
  rewrite Nat.sub_0_r, take_0, app_nil_l in Hgrey.
  rewrite Hgrey, bind_Returned. fold grey.
  rewrite bind_Returned, laplacian_rows. reflexivity.
Qed.

End LaplacianRows.

(** ** The Gaussian kernel, for a size that fits [int] *)

Section Kernel.

Lemma to_int_range (f : float) : INT_MIN <= Double.to_int f <= INT_MAX.
Proof.
  unfold Double.to_int.
  destruct (Double.truncate f) as [z|]; [|unfold INT_MIN, INT_MAX; lia].
  destruct (Z.leb_spec INT_MIN z), (Z.leb_spec z INT_MAX); simpl;
    unfold INT_MIN, INT_MAX in *; lia.
Qed.

Lemma int_max_max (a b : Z) : int_max a b = Z.max a b.
Proof. unfold int_max. destruct (Z.ltb_spec a b); lia. Qed.

(** Opposite offsets have the same weight before normalisation: the square
    is the same [int], wrapped or not. *)
Lemma kernel_exponent_symmetric (sigma : float) (radius i : Z) :
  radius <= INT_MAX -> 0 <= i <= 2 * radius ->
  kernel_exponent sigma radius (2 * radius - i)
  = kernel_exponent sigma radius i.
Proof.
  intros Hr Hi. unfold kernel_exponent.
  rewrite !int_sub_small by (unfold INT_MIN, INT_MAX in *; lia).
  unfold int_mul.
  replace ((2 * radius - i - radius) * (2 * radius - i - radius))
    with ((i - radius) * (i - radius)) by lia.
  reflexivity.
Qed.

(** Up to radius 46340 the square does not wrap and the argument of [exp]
    is the one of the specification. *)
Lemma kernel_exponent_spec (sigma : float) (radius i : Z) :
  0 <= radius <= 46340 -> 0 <= i <= 2 * radius ->
  kernel_exponent sigma radius i = Spec.kernel_exponent sigma (i - radius).
Proof.
  intros Hr Hi. unfold kernel_exponent, Spec.kernel_exponent.
  rewrite int_sub_small by (unfold INT_MIN, INT_MAX; lia).
  unfold int_neg.
  rewrite int_mul_small by (unfold INT_MIN, INT_MAX; nia).
  rewrite wrap_int_small by (unfold INT_MIN, INT_MAX; nia).
  reflexivity.
Qed.

Variable exp : float -> float.
Variable sigma : float.

Let radius := int_max 1 (Double.to_int (Double.ceil (sigma * 3)%float)).
Let size := 2 * radius + 1.
Let n := Z.to_nat size.

(** The weights before normalisation, by index. *)
Let vals : list float :=
  (fun i => exp (kernel_exponent sigma radius i)) <$> seqZ 0 size.

Lemma radius_range : 1 <= radius <= INT_MAX.
Proof.
  unfold radius. rewrite int_max_max.
  pose proof (to_int_range (Double.ceil (sigma * 3)%float)).
  unfold INT_MAX in *. lia.
Qed.

Lemma radius_spec : radius = Spec.kernel_radius sigma.
Proof. unfold radius. apply int_max_max. Qed.

Lemma vals_length : length vals = n.
Proof. unfold vals. rewrite length_fmap, length_seqZ. reflexivity. Qed.

Lemma vals_lookup (i : nat) :
  (i < n)%nat ->
  vals !! i = Some (exp (kernel_exponent sigma radius (Z.of_nat i))).
Proof.
  intros Hi. unfold vals. rewrite list_lookup_fmap.
  rewrite lookup_seqZ_lt by (unfold n in Hi; lia).
  reflexivity.
Qed.

Hypothesis Hfit : size <= INT_MAX.

(** The loop over [i] writes the weights and adds them up in order. *)
Lemma kernel_loop :
  for_loop n (fun i => i <? size) 1 (kernel_fill exp sigma radius) 0
    (replicate n 0%float, 0%float)
  = Returned (size, (vals, fold_left PrimFloat.add vals 0%float)).
Proof using Hfit.
  pose proof radius_range as Hr. pose proof vals_length as Hn.
  assert (Hsize : Z.of_nat n = size) by (unfold n, size; lia).
  destruct (for_loop_upto
              (fun (i : Z) (st : list float * float) =>
                 st = (take (Z.to_nat i) vals
                         ++ replicate (n - Z.to_nat i) 0%float,
                       fold_left PrimFloat.add (take (Z.to_nat i) vals)
                         0%float))
              size (kernel_fill exp sigma radius) n 0
              (replicate n 0%float, 0%float))
    as (st & -> & ->); try lia.
  - intros i st Hi ->.
    pose proof (vals_lookup (Z.to_nat i) ltac:(lia)) as Hv.
    rewrite Z2Nat.id in Hv by lia.
    eexists. split.
    + unfold kernel_fill.
      rewrite store_inside
        by (rewrite length_app, length_take, length_replicate; lia).
      rewrite bind_Returned.
      rewrite (fill_step vals 0%float n _ _ Hn Hv). reflexivity.
    + replace (Z.to_nat (i + 1)) with (S (Z.to_nat i)) by lia.
      rewrite (take_S_r _ _ _ Hv), fold_left_app. reflexivity.
  - simpl. rewrite Nat.sub_0_r. reflexivity.
  - rewrite <- Hsize, Nat2Z.id, Nat.sub_diag, app_nil_r.
    rewrite take_ge by lia. reflexivity.
Qed.

(** The generator returns the weights divided by their sum, and the
    radius. *)
Lemma generate_gaussian_kernel_in_int_range :
  generate_gaussian_kernel exp sigma
  = Returned ((fun v => (v / fold_left PrimFloat.add vals 0)%float) <$> vals,
              radius).
Proof using Hfit.
  pose proof radius_range as Hr.
  unfold generate_gaussian_kernel. fold radius.
  rewrite int_mul_small by (unfold size, INT_MIN, INT_MAX in *; lia).
  rewrite int_add_small by (unfold size, INT_MIN, INT_MAX in *; lia).
  fold size. unfold size_t_of_int, vector_n, max_size_double.
  rewrite Z.mod_small by (unfold size, INT_MAX in *; lia).
  destruct (Z.ltb_spec ((2 ^ 63 - 1) / 8) size) as [Hbig|_].
  { assert (2 ^ 31 <= (2 ^ 63 - 1) / 8) by (vm_compute; discriminate).
    unfold INT_MAX in *. lia. }
  rewrite bind_Returned. fold n.
  rewrite kernel_loop, bind_Returned. reflexivity.
Qed.

End Kernel.

(** ** One pass of the separable convolution, for a buffer that fits [int] *)

Section Convolve.

Lemma channel_index (w h x y c : Z) :
  0 <= x < w -> 0 <= y < h -> 0 <= c < 3 ->
  0 <= (y * w + x) * 3 + c < w * h * 3.
Proof. intros Hx Hy Hc. nia. Qed.

Lemma seqZ_snoc (m k : Z) : 0 <= k -> seqZ m (k + 1) = seqZ m k ++ [m + k].
Proof.
  intros Hk. rewrite seqZ_app by lia.
  rewrite (seqZ_cons (m + k) 1) by lia.
  rewrite (seqZ_nil (Z.succ (m + k))) by lia. reflexivity.
Qed.

Variables (w h radius : Z) (kernel : list float).
Hypothesis Hw : 1 <= w.
Hypothesis Hh : 1 <= h.
Hypothesis Hfit : w * h * 3 <= INT_MAX.
Hypothesis Hradius : 0 <= radius.
Hypothesis Hsize : 2 * radius + 1 <= INT_MAX.

(** The loop over [k] of a pass, and the sample it convolves along. *)
Variable tap : Z -> Z -> Z -> Z -> float -> outcome float.
Variable along : Z -> Z -> Z -> Z -> Z.

Hypothesis Htap : forall x y c k sum,
  0 <= x < w -> 0 <= y < h -> 0 <= c < 3 -> - radius <= k <= radius ->
  tap y x c k sum
  = Returned (sum + Spec.weight kernel (k + radius)
                    * Double.of_int (along x y c k))%float.

Let n := Z.to_nat (w * h * 3).

Let res : list uchar :=
  Spec.pass w h (fun x y c => Spec.convolve kernel radius (along x y c)).

Let term (x y c : Z) (sum : float) (k : Z) : float :=
  (sum + Spec.weight kernel (k + radius) * Double.of_int (along x y c k))%float.

Lemma pass_length : length res = n.
Proof using All.
  unfold res, Spec.pass. rewrite length_fmap, length_seqZ. reflexivity.
Qed.

Lemma pass_lookup (x y c : Z) :
  0 <= x < w -> 0 <= y < h -> 0 <= c < 3 ->
  res !! Z.to_nat ((y * w + x) * 3 + c)
  = Some (Spec.convolve kernel radius (along x y c)).
Proof using All.
  intros Hx Hy Hc. pose proof (channel_index w h x y c Hx Hy Hc) as Hi.
  unfold res, Spec.pass. rewrite list_lookup_fmap.
  rewrite lookup_seqZ_lt by lia. simpl.
  rewrite Z2Nat.id, Z.add_0_l by lia.
  rewrite (div_row_major (y * w + x) c 3), (mod_row_major (y * w + x) c 3)
    by lia.
  rewrite mod_row_major, div_row_major by lia.
  reflexivity.
Qed.

(** The loop over [k] adds the terms up in the order of the offsets. *)
Lemma tap_loop (x y c : Z) :
  0 <= x < w -> 0 <= y < h -> 0 <= c < 3 ->
  for_loop (Z.to_nat (2 * radius + 1)) (fun k => k <=? radius) 1
    (tap y x c) (int_neg radius) 0%float
  = Returned (radius + 1,
              fold_left (term x y c) (seqZ (- radius) (2 * radius + 1))
                0%float).
Proof using All.
  intros Hx Hy Hc.
  unfold int_neg.
  rewrite wrap_int_small by (unfold INT_MIN, INT_MAX in *; lia).
  assert (Hcond : forall k, (k <=? radius) = (k + 1 <=? radius + 1)).
  { intros k.
    destruct (Z.leb_spec k radius), (Z.leb_spec (k + 1) (radius + 1));
      auto; lia. }
  pose (P := fun (k : Z) (sum : float) =>
               - radius <= k <= radius + 1
               /\ sum = fold_left (term x y c)
                          (seqZ (- radius) (k + radius)) 0%float).
  assert (Hstep : forall k sum, k + 1 <= radius + 1 -> P k sum ->
            exists sum', tap y x c k sum = Returned sum' /\ P (k + 1) sum').
  { intros k sum Hk [Hk' ->]. eexists. split.
    - apply Htap; auto; lia.
    - split; [lia|].
      replace (k + 1 + radius) with (k + radius + 1) by lia.
      rewrite seqZ_snoc, fold_left_app by lia. simpl.
      replace (- radius + (k + radius)) with k by lia. reflexivity. }
  destruct (for_loop_inv P (fun k => k <=? radius) 1 (radius + 1)
              (tap y x c) ltac:(lia) Hcond Hstep
              (Z.to_nat (2 * radius + 1)) (- radius) 0%float)
    as (k' & sum & -> & [Hk ->] & Hlo & Hhi & Hin).
  - lia.
  - split; [lia|].
    replace (- radius + radius) with 0 by lia. reflexivity.
  - assert (k' = radius + 1) as -> by lia.
    replace (radius + 1 + radius) with (2 * radius + 1) by lia.
    reflexivity.
Qed.

Let filled (i : Z) : list uchar :=
  take (Z.to_nat i) res ++ replicate (n - Z.to_nat i) Byte.x00.

(** The loop over [c] writes the three samples of pixel [(x, y)]. *)
Lemma channel_loop (x y : Z) :
  0 <= x < w -> 0 <= y < h ->
  for_loop 3 (fun c => c <? channels) 1
    (fun c dst =>
       '(_, sum) ← for_loop (Z.to_nat (2 * radius + 1))
                     (fun k => k <=? radius) 1 (tap y x c)
                     (int_neg radius) 0%float;
       store dst (int_add (int_mul (int_add (int_mul y w) x) channels) c)
         (Double.to_uchar (Double.clamp sum 0 255)))
    0 (filled ((y * w + x) * 3))
  = Returned (channels, filled ((y * w + x + 1) * 3)).
Proof using All.
  intros Hx Hy. pose proof pass_length as Hn.
  assert (Hnz : Z.of_nat n = w * h * 3) by (unfold n; nia).
  destruct (for_loop_upto
              (fun (c : Z) (s : list uchar) =>
                 s = filled ((y * w + x) * 3 + c))
              channels
              (fun c dst =>
                 '(_, sum) ← for_loop (Z.to_nat (2 * radius + 1))
                               (fun k => k <=? radius) 1 (tap y x c)
                               (int_neg radius) 0%float;
                 store dst
                   (int_add (int_mul (int_add (int_mul y w) x) channels) c)
                   (Double.to_uchar (Double.clamp sum 0 255)))
              3%nat 0 (filled ((y * w + x) * 3)))
    as (s & -> & ->); unfold channels; try lia.
  - intros c s Hc ->.
    pose proof (channel_index w h x y c Hx Hy Hc) as Hi.
    exists (filled ((y * w + x) * 3 + (c + 1))). split; [|reflexivity].
    rewrite (tap_loop x y c Hx Hy Hc), bind_Returned.
    rewrite (int_mul_small y w) by (unfold INT_MIN, INT_MAX in *; nia).
    rewrite (int_add_small (y * w) x)
      by (unfold INT_MIN, INT_MAX in *; nia).
    rewrite (int_mul_small (y * w + x) 3)
      by (unfold INT_MIN, INT_MAX in *; nia).
    rewrite (int_add_small ((y * w + x) * 3) c)
      by (unfold INT_MIN, INT_MAX in *; nia).
    unfold filled.
    rewrite store_inside
      by (rewrite length_app, length_take, length_replicate; lia).
    replace (Z.to_nat ((y * w + x) * 3 + (c + 1)))
      with (S (Z.to_nat ((y * w + x) * 3 + c))) by lia.
    f_equal.
    exact (fill_step res Byte.x00 n _ _ Hn (pass_lookup x y c Hx Hy Hc)).
  - rewrite Z.add_0_r. reflexivity.
  - replace ((y * w + x + 1) * 3) with ((y * w + x) * 3 + 3) by lia.
    reflexivity.
Qed.

(** The three nested loops write the whole pass. *)
Lemma convolve_pass_in_int_range :
  convolve_pass w h radius tap (replicate n Byte.x00) = Returned res.
Proof using All.
  pose proof pass_length as Hn.
  assert (Hnz : Z.of_nat n = w * h * 3) by (unfold n; nia).
  unfold convolve_pass.
  destruct (for_loop_upto
              (fun (y : Z) (s : list uchar) => s = filled (y * w * 3)) h
              (fun y dst =>
                 '(_, dst) ← for_loop (Z.to_nat w) (fun x => x <? w) 1
                   (fun x dst =>
                      '(_, dst) ← for_loop 3 (fun c => c <? channels) 1
                        (fun c dst =>
                           '(_, sum) ← for_loop (Z.to_nat (2 * radius + 1))
                                         (fun k => k <=? radius) 1
                                         (tap y x c) (int_neg radius)
                                         0%float;
                           store dst
                             (int_add
                                (int_mul (int_add (int_mul y w) x) channels)
                                c)
                             (Double.to_uchar (Double.clamp sum 0 255)))
                        0 dst;
                      mret dst) 0 dst;
                 mret dst)
              (Z.to_nat h) 0 (replicate n Byte.x00))
    as (s & -> & ->); try lia.
  - intros y s Hy ->.
    destruct (for_loop_upto
                (fun (x : Z) (s : list uchar) =>
                   s = filled ((y * w + x) * 3)) w
                (fun x dst =>
                   '(_, dst) ← for_loop 3 (fun c => c <? channels) 1
                     (fun c dst =>
                        '(_, sum) ← for_loop (Z.to_nat (2 * radius + 1))
                                      (fun k => k <=? radius) 1
                                      (tap y x c) (int_neg radius) 0%float;
                        store dst
                          (int_add
                             (int_mul (int_add (int_mul y w) x) channels) c)
                          (Double.to_uchar (Double.clamp sum 0 255)))
                     0 dst;
                   mret dst)
                (Z.to_nat w) 0 (filled (y * w * 3)))
      as (s & E & ->); try lia.
    + intros x s Hx ->. exists (filled ((y * w + (x + 1)) * 3)).
      split; [|reflexivity].
      rewrite (channel_loop x y Hx Hy), bind_Returned.
      replace (y * w + x + 1) with (y * w + (x + 1)) by lia.
      reflexivity.
    + replace (y * w * 3) with ((y * w + 0) * 3) by lia. reflexivity.
    + eexists. split.
      * rewrite E, bind_Returned. reflexivity.
      * replace ((y + 1) * w * 3) with ((y * w + w) * 3) by lia.
        reflexivity.
  - unfold filled. simpl. rewrite Nat.sub_0_r. reflexivity.
  - rewrite bind_Returned. unfold filled.
    replace (Z.to_nat (h * w * 3)) with n by (unfold n; f_equal; lia).
    rewrite Nat.sub_diag, app_nil_r, take_ge by lia. reflexivity.
Qed.

End Convolve.

(** ** Gaussian blur, for a buffer and a kernel that fit [int] *)

Section Gaussian.

Variables (w h radius : Z) (kernel : list float).
Hypothesis Hw : 1 <= w.
Hypothesis Hh : 1 <= h.
Hypothesis Hfit : w * h * 3 <= INT_MAX.
Hypothesis Hradius : 0 <= radius.
Hypothesis Hsize : 2 * radius + 1 <= INT_MAX.
Hypothesis Hkernel : Z.of_nat (length kernel) = 2 * radius + 1.

Lemma weight_load (k : Z) :
  - radius <= k <= radius ->
  load kernel (int_add k radius)
  = Returned (Spec.weight kernel (k + radius)).
Proof using All.
  intros Hk.
  rewrite int_add_small by (unfold INT_MIN, INT_MAX in *; lia).
  destruct (load_inside kernel (k + radius)) as (v & Hv & ->); [lia|].
  unfold Spec.weight. rewrite Hv. reflexivity.
Qed.

Lemma sample_load (p : list uchar) (x y c : Z) :
  Z.of_nat (length p) = w * h * 3 ->
  0 <= x < w -> 0 <= y < h -> 0 <= c < 3 ->
  load p (int_add (int_mul (int_add (int_mul y w) x) channels) c)
  ≫= (fun v => Returned (uchar_val v))
  = Returned (Spec.sample p w x y c).
Proof using All.
  intros Hp Hx Hy Hc. pose proof (channel_index w h x y c Hx Hy Hc) as Hi.
  unfold channels.
  rewrite (int_mul_small y w) by (unfold INT_MIN, INT_MAX in *; nia).
  rewrite (int_add_small (y * w) x) by (unfold INT_MIN, INT_MAX in *; nia).
  rewrite (int_mul_small (y * w + x) 3)
    by (unfold INT_MIN, INT_MAX in *; nia).
  rewrite (int_add_small ((y * w + x) * 3) c)
    by (unfold INT_MIN, INT_MAX in *; nia).
  destruct (load_inside p ((y * w + x) * 3 + c)) as (v & Hv & ->); [lia|].
  rewrite bind_Returned. unfold Spec.sample. rewrite Hv. reflexivity.
Qed.

Lemma horizontal_tap_in_int_range (p : list uchar) (x y c k : Z)
    (sum : float) :
  Z.of_nat (length p) = w * h * 3 ->
  0 <= x < w -> 0 <= y < h -> 0 <= c < 3 -> - radius <= k <= radius ->
  horizontal_tap kernel radius p w y x c k sum
  = Returned (sum + Spec.weight kernel (k + radius)
                    * Double.of_int
                        (Spec.sample p w (Spec.nearest (x + k) (w - 1)) y c))
      %float.
Proof using All.
  intros Hp Hx Hy Hc Hk. unfold horizontal_tap.
  assert (Hw3 : w * 3 <= INT_MAX) by nia.
  rewrite (int_add_small x k) by (unfold INT_MIN, INT_MAX in *; lia).
  rewrite (int_sub_small w 1) by (unfold INT_MIN, INT_MAX in *; lia).
  rewrite clamp_nearest by lia.
  pose proof (nearest_range (x + k) (w - 1) ltac:(lia)) as Hsx.
  rewrite (weight_load k Hk), bind_Returned.
  pose proof (sample_load p (Spec.nearest (x + k) (w - 1)) y c Hp
                ltac:(lia) Hy Hc) as E.
  destruct (load p _) as [v| | |]; simpl in E; try discriminate E.
  rewrite bind_Returned. injection E as <-. reflexivity.
Qed.

Lemma vertical_tap_in_int_range (p : list uchar) (x y c k : Z)
    (sum : float) :
  Z.of_nat (length p) = w * h * 3 ->
  0 <= x < w -> 0 <= y < h -> 0 <= c < 3 -> - radius <= k <= radius ->
  vertical_tap kernel radius p w h y x c k sum
  = Returned (sum + Spec.weight kernel (k + radius)
                    * Double.of_int
                        (Spec.sample p w x (Spec.nearest (y + k) (h - 1)) c))
      %float.
Proof using All.
  intros Hp Hx Hy Hc Hk. unfold vertical_tap.
  assert (Hh3 : h * 3 <= INT_MAX) by nia.
  rewrite (int_add_small y k) by (unfold INT_MIN, INT_MAX in *; lia).
  rewrite (int_sub_small h 1) by (unfold INT_MIN, INT_MAX in *; lia).
  rewrite clamp_nearest by lia.
  pose proof (nearest_range (y + k) (h - 1) ltac:(lia)) as Hsy.
  rewrite (weight_load k Hk), bind_Returned.
  pose proof (sample_load p x (Spec.nearest (y + k) (h - 1)) c Hp
                Hx ltac:(lia) Hc) as E.
  destruct (load p _) as [v| | |]; simpl in E; try discriminate E.
  rewrite bind_Returned. injection E as <-. reflexivity.
Qed.

Variable B : list uchar.
Hypothesis HB : Z.of_nat (length B) = w * h * 3.

(** The two passes, one after the other, write the blur of the
    specification. *)
Lemma gaussian_passes :
  let blank := replicate (length B) Byte.x00 in
  (temp ← convolve_pass w h radius (horizontal_tap kernel radius B w) blank;
   output ← convolve_pass w h radius (vertical_tap kernel radius temp w h)
              blank;
   mret output)
  = Returned (Spec.blur kernel radius B w h).
Proof using All.
  intros blank. subst blank.
  replace (length B) with (Z.to_nat (w * h * 3)) by lia.
  rewrite (convolve_pass_in_int_range w h radius kernel Hw Hh Hfit Hradius
             Hsize (horizontal_tap kernel radius B w)
             (fun x y c k =>
                Spec.sample B w (Spec.nearest (x + k) (w - 1)) y c)).
  2:{ intros. apply horizontal_tap_in_int_range; assumption. }
  rewrite bind_Returned. fold (Spec.horizontal kernel radius B w h).
  rewrite (convolve_pass_in_int_range w h radius kernel Hw Hh Hfit Hradius
             Hsize
             (vertical_tap kernel radius (Spec.horizontal kernel radius B w h)
                w h)
             (fun x y c k =>
                Spec.sample (Spec.horizontal kernel radius B w h) w x
                  (Spec.nearest (y + k) (h - 1)) c)).
  2:{ intros. apply vertical_tap_in_int_range; try assumption.
      unfold Spec.horizontal, Spec.pass.
      rewrite length_fmap, length_seqZ. nia. }
  reflexivity.
Qed.

End Gaussian.

Section GaussianCalls.

Lemma wrap_int_above (z : Z) :
  2 ^ 31 <= z < 2 ^ 32 + 2 ^ 31 -> wrap_int z = z - 2 ^ 32.
Proof.
  intros H. unfold wrap_int.
  replace (z + 2 ^ 31) with (z - 2 ^ 31 + 1 * 2 ^ 32) by lia.
  rewrite Z.mod_add, Z.mod_small by lia. lia.
Qed.

Variable exp : float -> float.

(** A kernel size beyond [INT_MAX] wraps to a negative [int], which no
    vector can have as its size. *)
Lemma generate_gaussian_kernel_too_large (sigma : float) :
  INT_MAX < 2 * Spec.kernel_radius sigma + 1 ->
  generate_gaussian_kernel exp sigma = Threw length_error.
Proof.
  intros Hbig. pose proof (radius_range sigma) as Hr.
  rewrite radius_spec in Hr.
  unfold generate_gaussian_kernel. rewrite int_max_max.
  fold (Spec.kernel_radius sigma).
  set (r := Spec.kernel_radius sigma) in *.
  unfold int_mul, int_add.
  rewrite (wrap_int_above (2 * r)) by (unfold INT_MAX in *; lia).
  rewrite (wrap_int_small (2 * r - 2 ^ 32 + 1))
    by (unfold INT_MIN, INT_MAX in *; lia).
  unfold size_t_of_int, vector_n, max_size_double.
  replace (2 * r - 2 ^ 32 + 1)
    with (2 * r - 2 ^ 32 + 1 + 2 ^ 64 + (-1) * 2 ^ 64) by lia.
  rewrite Z.mod_add, Z.mod_small by (unfold INT_MAX in *; lia).
  assert (Hmax : (2 ^ 63 - 1) / 8 < 2 ^ 61) by (vm_compute; reflexivity).
  destruct (Z.ltb_spec ((2 ^ 63 - 1) / 8) (2 * r - 2 ^ 32 + 1 + 2 ^ 64));
    [reflexivity | unfold INT_MAX in *; lia].
Qed.

(** What a kernel that was returned looks like. *)
Lemma generate_gaussian_kernel_returns (sigma : float) (kernel : list float)
    (radius : Z) :
  generate_gaussian_kernel exp sigma = Returned (kernel, radius) ->
  radius = Spec.kernel_radius sigma /\ 1 <= radius
  /\ 2 * radius + 1 <= INT_MAX
  /\ Z.of_nat (length kernel) = 2 * radius + 1.
Proof.
  intros E. pose proof (radius_range sigma) as Hr.
  pose proof (radius_spec sigma) as Hs.
  set (r := int_max 1 (Double.to_int (Double.ceil (sigma * 3)%float))) in *.
  destruct (Z.le_gt_cases (2 * r + 1) INT_MAX) as [Hfit|Hbig].
  - rewrite (generate_gaussian_kernel_in_int_range exp sigma Hfit) in E.
    fold r in E. injection E as <- <-.
    split; [exact Hs|]. split; [lia|]. split; [exact Hfit|].
    rewrite !length_fmap, length_seqZ. lia.
  - rewrite Hs in Hbig.
    rewrite (generate_gaussian_kernel_too_large sigma Hbig) in E.
    discriminate E.
Qed.

(** Within the range of [int] the code returns the two-pass blur of the
    specification, with the kernel that the generator returned. *)
Lemma gaussian_in_int_range (B : list uchar) (w h strength : Z) :
  1 <= w -> 1 <= h -> Z.of_nat (length B) = w * h * 3 ->
  w * h * 3 <= INT_MAX ->
  2 * Spec.kernel_radius (Spec.sigma strength) + 1 <= INT_MAX ->
  exists kernel,
    generate_gaussian_kernel exp (Spec.sigma strength)
    = Returned (kernel, Spec.kernel_radius (Spec.sigma strength))
    /\ apply_gaussian_rgb exp B w h strength
       = Returned (Spec.blur kernel
                     (Spec.kernel_radius (Spec.sigma strength)) B w h).
Proof.
  intros Hw Hh HB Hfit Hsize.
  pose proof Hsize as Hsize'. rewrite <- radius_spec in Hsize'.
  pose proof (generate_gaussian_kernel_in_int_range exp _ Hsize') as E.
  rewrite radius_spec in E.
  destruct (generate_gaussian_kernel_returns _ _ _ E)
    as (_ & Hr & _ & Hk).
  eexists. split; [exact E|].
  unfold apply_gaussian_rgb. rewrite HB.
  rewrite Z.mod_mul by lia. simpl negb. cbv iota.
  unfold int_of_unsigned.
  assert (Hw' : w <= INT_MAX) by (clear - Hw Hh Hfit; nia).
  assert (Hh' : h <= INT_MAX) by (clear - Hw Hh Hfit; nia).
  rewrite (wrap_int_small w), (wrap_int_small h)
    by (unfold INT_MIN, INT_MAX in *; lia).
  fold (Spec.sigma strength). rewrite E, bind_Returned.
  assert (Hr0 : 0 <= Spec.kernel_radius (Spec.sigma strength)) by lia.
  apply (gaussian_passes w h _ _ Hw Hh Hfit Hr0 Hsize Hk B HB).
Qed.

End GaussianCalls.

(** ** The invalid-input error comes from the length check only *)

Section InvalidInput.

Lemma bind_never_invalid {A B} (m : outcome A) (k : A -> outcome B) :
  m <> Threw invalid_argument ->
  (forall a, k a <> Threw invalid_argument) ->
  (m ≫= k) <> Threw invalid_argument.
Proof.
  intros Hm Hk. destruct m as [a|[]| |]; simpl; auto; discriminate.
Qed.

Lemma for_loop_never_invalid {St} (fuel : nat) (cond : Z -> bool) (st : Z)
    (body : Z -> St -> outcome St) (i : Z) (s : St) :
  (forall i s, body i s <> Threw invalid_argument) ->
  for_loop fuel cond st body i s <> Threw invalid_argument.
Proof.
  intros Hbody. revert i s.
  induction fuel as [|fuel IH]; intros i s; simpl;
    destruct (cond i); try discriminate.
  apply bind_never_invalid; auto.
Qed.

Lemma load_never_invalid {A} (p : list A) (i : Z) :
  load p i <> Threw invalid_argument.
Proof.
  unfold load. destruct (i <? 0); [discriminate|].
  destruct (p !! Z.to_nat i); discriminate.
Qed.

Lemma store_never_invalid {A} (p : list A) (i : Z) (v : A) :
  store p i v <> Threw invalid_argument.
Proof. unfold store. destruct (_ && _); discriminate. Qed.

Lemma vector_n_never_invalid {A} (max : Z) (d : A) (n : Z) :
  vector_n max d n <> Threw invalid_argument.
Proof. unfold vector_n. destruct (max <? n); discriminate. Qed.

End InvalidInput.

(** Goals [o <> Threw invalid_argument] for a body made of loops, reads,
    writes and vector constructions. *)
Ltac never_invalid :=
  repeat first
    [ apply load_never_invalid
    | apply store_never_invalid
    | apply vector_n_never_invalid
    | apply for_loop_never_invalid; intros
    | apply bind_never_invalid; [|intros]
    | match goal with p : (_ * _)%type |- _ => destruct p end
    | discriminate ].

Section InvalidInputOfFilters.

Variable exp : float -> float.

Lemma generate_gaussian_kernel_never_invalid (sigma : float) :
  generate_gaussian_kernel exp sigma <> Threw invalid_argument.
Proof.
  unfold generate_gaussian_kernel, kernel_fill. never_invalid.
Qed.

Lemma convolve_pass_never_invalid (w h radius : Z)
    (tap : Z -> Z -> Z -> Z -> float -> outcome float) (dst : list uchar) :
  (forall y x c k sum, tap y x c k sum <> Threw invalid_argument) ->
  convolve_pass w h radius tap dst <> Threw invalid_argument.
Proof.
  intros Htap. unfold convolve_pass. never_invalid; auto.
Qed.

(** Each transform fails with the invalid-input error exactly when the
    length of the buffer is not a multiple of 3; the check is the first
    thing each of them does. *)
Lemma invalid_argument_iff (B : list uchar) (w h strength : Z) :
  let rejected := Z.of_nat (length B) mod 3 <> 0 in
  (apply_greyscale_rgb_simd B = Threw invalid_argument <-> rejected)
  /\ (apply_invert_rgb_simd B = Threw invalid_argument <-> rejected)
  /\ (apply_gaussian_rgb exp B w h strength = Threw invalid_argument
      <-> rejected)
  /\ (apply_laplacian_rgb B w h = Threw invalid_argument <-> rejected).
Proof.
  intros rejected. subst rejected.
  unfold apply_greyscale_rgb_simd, apply_invert_rgb_simd,
    apply_gaussian_rgb, apply_laplacian_rgb.
  destruct (Z.eqb_spec (Z.of_nat (length B) mod 3) 0) as [E|E]; simpl negb;
    cbv iota.
  - repeat split; intros H; try (exfalso; exact (H E)); exfalso;
      revert H.
    + unfold greyscale_group, greyscale_lane, greyscale_scalar,
        _mm_loadl_epi64, _mm_storel_epi64, load_n, store_n.
      never_invalid; repeat (destruct (_ && _)); never_invalid.
    + unfold invert_group, invert_scalar, _mm_loadu_si128,
        _mm_storeu_si128, load_n, store_n.
      never_invalid; repeat (destruct (_ && _)); never_invalid.
    + apply bind_never_invalid;
        [apply generate_gaussian_kernel_never_invalid|].
      intros [kernel radius].
      apply bind_never_invalid; [|intros temp; apply bind_never_invalid];
        try (apply convolve_pass_never_invalid; intros;
             unfold horizontal_tap, vertical_tap; never_invalid).
      intros; discriminate.
    + unfold laplacian_grey, laplacian_pixel, get_grey. never_invalid.
  - repeat split; auto.
Qed.

End InvalidInputOfFilters.

(** ** Flat fields and the 1 x 1 image *)

Section Boundary.

Lemma flat_image_length (n : nat) (r g b : uchar) :
  length (Spec.flat_image n r g b) = (3 * n)%nat.
Proof. induction n as [|n IH]; simpl; lia. Qed.

Lemma greyscale_flat (n : nat) (r g b : uchar) :
  Spec.greyscale (Spec.flat_image n r g b) = replicate n (luma r g b).
Proof.
  induction n as [|n IH]; [reflexivity|].
  simpl. rewrite IH. reflexivity.
Qed.

(** On a flat greyscale buffer every lookup gives the one value. *)
Lemma grey_at_flat (w h x y : Z) (g : uchar) :
  1 <= w -> 1 <= h ->
  Spec.grey_at (replicate (Z.to_nat (w * h)) g) w h x y = uchar_val g.
Proof.
  intros Hw Hh. unfold Spec.grey_at.
  pose proof (nearest_range x (w - 1) ltac:(lia)) as Hx.
  pose proof (nearest_range y (h - 1) ltac:(lia)) as Hy.
  pose proof (grid_index w h (Spec.nearest x (w - 1))
                (Spec.nearest y (h - 1)) ltac:(lia) ltac:(lia)) as Hi.
  rewrite lookup_replicate_2 by lia. reflexivity.
Qed.

(** A flat field has no edges. *)
Lemma laplacian_flat (w h : Z) (r g b : uchar) :
  1 <= w -> 1 <= h ->
  Spec.laplacian (Spec.flat_image (Z.to_nat (w * h)) r g b) w h
  = replicate (Z.to_nat (w * h)) Byte.x00.
Proof.
  intros Hw Hh. unfold Spec.laplacian. rewrite greyscale_flat.
  apply list_eq. intros i. rewrite list_lookup_fmap.
  destruct (Nat.lt_ge_cases i (Z.to_nat (w * h))) as [Hi|Hi].
  - rewrite lookup_seqZ_lt, lookup_replicate_2 by lia. simpl.
    unfold Spec.laplacian_sample. rewrite !grey_at_flat by lia.
    replace (4 * uchar_val (luma r g b) - uchar_val (luma r g b)
             - uchar_val (luma r g b) - uchar_val (luma r g b)
             - uchar_val (luma r g b)) with 0 by lia.
    reflexivity.
  - rewrite lookup_seqZ_ge by lia.
    rewrite (proj1 (lookup_replicate_None _ _ _)) by lia. reflexivity.
Qed.

(** On a 1 x 1 image every neighbour lookup of the Laplacian returns the
    single grey value. *)
Lemma get_grey_1x1 (g : uchar) (px py : Z) :
  get_grey [g] 1 1 px py = Returned (uchar_val g).
Proof.
  rewrite (get_grey_clamped 1 1 [g]) by (unfold INT_MAX; simpl; lia).
  unfold Spec.grey_at.
  assert (Hx : Spec.nearest px (1 - 1) = 0) by (unfold Spec.nearest; lia).
  assert (Hy : Spec.nearest py (1 - 1) = 0) by (unfold Spec.nearest; lia).
  rewrite Hx, Hy. reflexivity.
Qed.

(** On a 1 x 1 image every tap of either pass of the blur reads the
    sample of its channel of the single pixel. *)
Lemma taps_1x1 (kernel : list float) (radius : Z) (p : list uchar)
    (c k : Z) (sum : float) :
  0 <= radius -> 2 * radius + 1 <= INT_MAX ->
  Z.of_nat (length kernel) = 2 * radius + 1 ->
  length p = 3%nat -> 0 <= c < 3 -> - radius <= k <= radius ->
  let term := (sum + Spec.weight kernel (k + radius)
                     * Double.of_int (Spec.sample p 1 0 0 c))%float in
  horizontal_tap kernel radius p 1 0 0 c k sum = Returned term
  /\ vertical_tap kernel radius p 1 1 0 0 c k sum = Returned term.
Proof.
  intros Hr Hsize Hk Hp Hc Hkr term. subst term.
  assert (Hn : forall v, Spec.nearest v (1 - 1) = 0)
    by (intros v; unfold Spec.nearest; lia).
  split.
  - rewrite (horizontal_tap_in_int_range 1 1 radius kernel)
      by (unfold INT_MAX in *; simpl; lia).
    rewrite Hn. reflexivity.
  - rewrite (vertical_tap_in_int_range 1 1 radius kernel)
      by (unfold INT_MAX in *; simpl; lia).
    rewrite Hn. reflexivity.
Qed.

End Boundary.

(** ** The contracts of the spatial filters within the range of [int] *)

Section Contracts.

Lemma laplacian_sample_range (grey : list uchar) (w h x y : Z) :
  0 <= Spec.laplacian_sample grey w h x y <= 255.
Proof. unfold Spec.laplacian_sample. lia. Qed.

(** For dimensions of at least 1 whose product fits [int], the Laplacian
    returns width*height samples, the one of pixel [(x, y)] is
    [clamp(|4*center - top - bottom - left - right|, 0, 255)] over the
    greyscale of the input, and a flat input gives an all-zero output. *)
Lemma laplacian_contract (B : list uchar) (w h : Z) :
  1 <= w -> 1 <= h -> w * h * 3 = Z.of_nat (length B) ->
  w * h <= INT_MAX ->
  exists out,
    apply_laplacian_rgb B w h = Returned out
    /\ Z.of_nat (length out) = w * h
    /\ (forall x y, 0 <= x < w -> 0 <= y < h ->
          exists s,
            out !! Z.to_nat (y * w + x) = Some s
            /\ uchar_val s
               = Spec.laplacian_sample (Spec.greyscale B) w h x y
            /\ 0 <= uchar_val s <= 255)
    /\ (forall r g b, B = Spec.flat_image (Z.to_nat (w * h)) r g b ->
          out = replicate (Z.to_nat (w * h)) Byte.x00).
Proof.
  intros Hw Hh HB Hfit. exists (Spec.laplacian B w h).
  split; [exact (laplacian_in_int_range B w h Hw Hh Hfit HB)|].
  split; [rewrite (laplacian_res_length B w h Hw Hh Hfit HB); nia|].
  split.
  - intros x y Hx Hy. eexists.
    split; [exact (laplacian_res_lookup B w h Hw Hh Hfit HB x y Hx Hy)|].
    pose proof (laplacian_sample_range (Spec.greyscale B) w h x y) as Hs.
    rewrite uchar_val_to_uchar, Z.mod_small by lia.
    split; [reflexivity | exact Hs].
  - intros r g b ->. apply laplacian_flat; assumption.
Qed.

(** For dimensions of at least 1, a buffer that fits [int] and a kernel
    size that fits [int], the blur is the two-pass convolution of the
    specification with the kernel the generator returns for
    [sigma = max(strength/10.0, 0.1)], and has the length of the input. *)
Lemma gaussian_contract (exp : float -> float) (B : list uchar)
    (w h strength : Z) :
  1 <= w -> 1 <= h -> w * h * 3 = Z.of_nat (length B) ->
  w * h * 3 <= INT_MAX ->
  2 * Spec.kernel_radius (Spec.sigma strength) + 1 <= INT_MAX ->
  exists kernel out,
    generate_gaussian_kernel exp (Spec.sigma strength)
    = Returned (kernel, Spec.kernel_radius (Spec.sigma strength))
    /\ apply_gaussian_rgb exp B w h strength = Returned out
    /\ out = Spec.vertical kernel (Spec.kernel_radius (Spec.sigma strength))
               (Spec.horizontal kernel
                  (Spec.kernel_radius (Spec.sigma strength)) B w h) w h
    /\ length out = length B.
Proof.
  intros Hw Hh HB Hfit Hsize.
  destruct (gaussian_in_int_range exp B w h strength Hw Hh (eq_sym HB)
              Hfit Hsize) as (kernel & Ek & Eb).
  exists kernel. eexists. split; [exact Ek|]. split; [exact Eb|].
  split; [reflexivity|].
  unfold Spec.blur, Spec.vertical, Spec.pass.
  rewrite length_fmap, length_seqZ. lia.
Qed.

(** For a radius up to 46340 the generator returns the kernel of the
    specification: radius [max(1, ceil(3*sigma))], the weights
    [exp(-(i*i)/(2*sigma*sigma))] for the offsets [-radius .. radius], each
    divided by their sum; the length is [2*radius + 1] and opposite offsets
    have equal weights. *)
Lemma kernel_contract (exp : float -> float) (sigma : float) :
  Spec.kernel_radius sigma <= 46340 ->
  let radius := Spec.kernel_radius sigma in
  generate_gaussian_kernel exp sigma = Returned (Spec.kernel exp sigma, radius)
  /\ Z.of_nat (length (Spec.kernel exp sigma)) = 2 * radius + 1
  /\ (forall i, 0 <= i <= 2 * radius ->
        Spec.kernel exp sigma !! Z.to_nat (2 * radius - i)
        = Spec.kernel exp sigma !! Z.to_nat i).
Proof.
  intros Hr radius.
  pose proof (radius_range sigma) as Hrange.
  pose proof (radius_spec sigma) as Hs. fold radius in Hs.
  rewrite Hs in Hrange.
  assert (Hvals :
    (fun i => exp (kernel_exponent sigma radius i)) <$> seqZ 0 (2 * radius + 1)
    = (fun i => exp (Spec.kernel_exponent sigma i))
        <$> seqZ (- radius) (2 * radius + 1)).
  { replace (- radius) with (- radius + 0) by lia.
    rewrite <- (fmap_add_seqZ (- radius) 0), <- list_fmap_compose.
    apply list_fmap_ext. intros j i Hi. simpl.
    apply lookup_seqZ in Hi as [-> Hj].
    rewrite kernel_exponent_spec by (fold radius in Hr; lia).
    f_equal. f_equal. lia. }
  assert (Hgen : generate_gaussian_kernel exp sigma
                 = Returned (Spec.kernel exp sigma, radius)).
  { rewrite generate_gaussian_kernel_in_int_range
      by (rewrite Hs; unfold INT_MAX; fold radius in Hr; lia).
    rewrite Hs. unfold Spec.kernel. fold radius. cbv zeta.
    rewrite Hvals. reflexivity. }
  split; [exact Hgen|].
  destruct (generate_gaussian_kernel_returns exp _ _ _ Hgen)
    as (_ & _ & _ & Hlen).
  split; [exact Hlen|].
  intros i Hi. unfold Spec.kernel. fold radius. cbv zeta.
  rewrite <- Hvals. rewrite !list_lookup_fmap.
  rewrite !lookup_seqZ_lt by lia. simpl.
  rewrite !Z2Nat.id, !Z.add_0_l by lia.
  rewrite kernel_exponent_symmetric by (unfold INT_MAX; lia).
  reflexivity.
Qed.

End Contracts.

(** ** Inputs beyond the range of [int] *)

(** A 65536 x 65536 image: [w * h] wraps to 0, [grey] and [output] are
    created empty, and the first [get_grey] reads [grey[0]]. *)
Lemma laplacian_65536 (B : list uchar) :
  Z.of_nat (length B) = 65536 * 65536 * 3 ->
  apply_laplacian_rgb B 65536 65536 = OutOfBounds.
Proof.
  intros H. unfold apply_laplacian_rgb. rewrite H.
  vm_compute. reflexivity.
Qed.

(** A 2147483648 x 2 image: [w] is [INT_MIN], [w * h] wraps to 0 and no
    loop over [x] runs; an empty buffer is returned. *)
Lemma laplacian_2147483648_2 (B : list uchar) :
  Z.of_nat (length B) = 2147483648 * 2 * 3 ->
  apply_laplacian_rgb B 2147483648 2 = Returned [].
Proof.
  intros H. unfold apply_laplacian_rgb. rewrite H.
  vm_compute. reflexivity.
Qed.

Lemma black_2pow32_length :
  Z.of_nat (length Examples.black_2pow32) = 65536 * 65536 * 3.
Proof.
  unfold Examples.black_2pow32. rewrite length_replicate.
  rewrite Z2Nat.id by lia. reflexivity.
Qed.

(** Whatever the buffer, a strength whose kernel size is beyond [INT_MAX]
    makes the blur throw [std::length_error]. *)
Lemma gaussian_kernel_too_large (exp : float -> float) (B : list uchar)
    (w h strength : Z) :
  Z.of_nat (length B) mod 3 = 0 ->
  INT_MAX < 2 * Spec.kernel_radius (Spec.sigma strength) + 1 ->
  apply_gaussian_rgb exp B w h strength = Threw length_error.
Proof.
  intros H3 Hbig. unfold apply_gaussian_rgb. rewrite H3. simpl negb.
  cbv iota. fold (Spec.sigma strength).
  rewrite (generate_gaussian_kernel_too_large exp _ Hbig). reflexivity.
Qed.

(** ** The statements of the specification *)

Lemma multiple_of_3 (B : list uchar) :
  Z.of_nat (length B) mod 3 = 0 ->
  length B = (3 * Z.to_nat (Z.of_nat (length B) / 3))%nat.
Proof.
  intros H. apply Z.div_exact in H; lia.
Qed.

(** C1. For every RGB buffer whose length is a multiple of 3,
    [apply_greyscale_rgb_simd] returns a buffer with one sample per pixel,
    and the sample of pixel [p], whose source samples are (R, G, B), is
    [(77*R + 150*G + 29*B + 128) >> 8]; the white pixel gives 255 and the
    black pixel gives 0. *)
Theorem greyscale_samples (B : list uchar) :
  Z.of_nat (length B) mod 3 = 0 ->
  exists out,
    apply_greyscale_rgb_simd B = Returned out
    /\ Z.of_nat (length out) = Z.of_nat (length B) / 3
    /\ (forall p : nat, (p < length out)%nat ->
          exists r g b y,
            B !! (3 * p)%nat = Some r /\ B !! (3 * p + 1)%nat = Some g
            /\ B !! (3 * p + 2)%nat = Some b /\ out !! p = Some y
            /\ uchar_val y
               = Z.shiftr (77 * uchar_val r + 150 * uchar_val g
                           + 29 * uchar_val b + 128) 8)
    /\ apply_greyscale_rgb_simd Examples.white_pixel = Returned [Byte.xff]
    /\ apply_greyscale_rgb_simd Examples.black_pixel = Returned [Byte.x00].
Proof.
  intros H3. pose proof (multiple_of_3 B H3) as Hn.
  exists (Spec.greyscale B).
  split; [exact (greyscale_loops B _ Hn)|].
  split; [apply greyscale_length|].
  split; [|split; vm_compute; reflexivity].
  intros p Hp.
  assert (Hlt : (3 * p + 2 < length B)%nat).
  { pose proof (greyscale_length B) as HL.
    pose proof (Z.div_exact (Z.of_nat (length B)) 3 ltac:(lia)) as [_ Hx].
    specialize (Hx H3). lia. }
  destruct (greyscale_pixel B p Hlt) as (r & g & b & Hr & Hg & Hb & Hy).
  exists r, g, b, (luma r g b). repeat split; try assumption.
  apply uchar_val_luma.
Qed.

(** The theorem at nineteen pixels: two groups of eight and three pixels
    one at a time. *)
Lemma greyscale_samples_witness :
  exists out,
    apply_greyscale_rgb_simd Examples.nineteen_pixels = Returned out
    /\ Z.of_nat (length out) = 19.
Proof.
  destruct (greyscale_samples Examples.nineteen_pixels)
    as (out & E & L & _); [vm_compute; reflexivity|].
  exists out. split; [exact E|]. rewrite L. vm_compute. reflexivity.
Defined.

(** C2 at its failing input. On a 1 x 1 image with strength 4000000000 the
    kernel size [2 * radius + 1] leaves the range of [int], the kernel
    vector cannot be created and [apply_gaussian_rgb] throws
    [std::length_error]: no buffer of the length of the input is
    returned. *)
Theorem gaussian_strength_4e9 (exp : float -> float) :
  1 * 1 * 3 = Z.of_nat (length Examples.black_pixel)
  /\ apply_gaussian_rgb exp Examples.black_pixel 1 1 4000000000
     = Threw length_error
  /\ ~ exists out,
         apply_gaussian_rgb exp Examples.black_pixel 1 1 4000000000
         = Returned out
         /\ length out = length Examples.black_pixel.
Proof.
  split; [vm_compute; reflexivity|].
  split; [vm_compute; reflexivity|].
  intros (out & E & _). vm_compute in E. discriminate E.
Qed.

(** C3 at its failing input. For the 65536 x 65536 black image, whose
    buffer has width*height*3 samples, [apply_laplacian_rgb] returns no
    buffer at all, so none of length width*height: it leaves the bounds of
    its intermediate greyscale buffer. *)
Theorem laplacian_65536_returns_nothing :
  Z.of_nat (length Examples.black_2pow32) = 65536 * 65536 * 3
  /\ apply_laplacian_rgb Examples.black_2pow32 65536 65536 = OutOfBounds
  /\ ~ exists out,
         apply_laplacian_rgb Examples.black_2pow32 65536 65536 = Returned out.
Proof.
  pose proof (laplacian_65536 _ black_2pow32_length) as E.
  split; [exact black_2pow32_length|]. split; [exact E|].
  intros (out & E'). rewrite E in E'. discriminate E'.
Qed.

(** C4 at its failing inputs. Each buffer has a length that is a multiple
    of 3 and agrees with the dimensions, and yet the blur of the first
    neither succeeds nor fails with the invalid-input error, and the
    Laplacian of the second succeeds with an empty buffer where
    width*height samples are due. *)
Theorem spatial_filters_outside_contract (exp : float -> float) :
  Z.of_nat (length Examples.white_pixel) mod 3 = 0
  /\ 1 * 1 * 3 = Z.of_nat (length Examples.white_pixel)
  /\ apply_gaussian_rgb exp Examples.white_pixel 1 1 4294967295
     = Threw length_error
  /\ Z.of_nat (length Examples.black_2pow32) mod 3 = 0
  /\ 2147483648 * 2 * 3 = Z.of_nat (length Examples.black_2pow32)
  /\ apply_laplacian_rgb Examples.black_2pow32 2147483648 2 = Returned [].
Proof.
  pose proof black_2pow32_length as H.
  split; [vm_compute; reflexivity|].
  split; [vm_compute; reflexivity|].
  split; [vm_compute; reflexivity|].
  split; [rewrite H; reflexivity|].
  split; [rewrite H; reflexivity|].
  apply laplacian_2147483648_2. rewrite H. reflexivity.
Qed.

(** C5 at its failing inputs. For sigma = 20000 the radius is 60000 and
    the [int] product [x * x] at the first offset, -60000, wraps to a
    negative number, so the argument of [exp] is positive where the formula
    [-(i*i)/(2*sigma*sigma)] of the claim is negative; for sigma = 4e8,
    which is what strength 4000000000 gives, the generator throws
    [std::length_error] instead of returning a kernel. *)
Theorem kernel_outside_int_range (exp : float -> float) :
  int_max 1 (Double.to_int (Double.ceil (20000 * 3)%float)) = 60000
  /\ int_mul (0 - 60000) (0 - 60000) = -694967296
  /\ PrimFloat.ltb 0 (kernel_exponent 20000 60000 0) = true
  /\ PrimFloat.ltb (Spec.kernel_exponent 20000 (0 - 60000)) 0 = true
  /\ generate_gaussian_kernel exp 400000000 = Threw length_error.
Proof.
  repeat split; vm_compute; reflexivity.
Qed.

(** C6, as stated, fails: a buffer whose length is not a multiple of 3 is
    rejected, so invert returns no buffer of the same length for it. *)
Lemma invert_rejects_one_sample :
  ~ exists out,
      apply_invert_rgb_simd Examples.one_sample = Returned out
      /\ length out = length Examples.one_sample.
Proof.
  intros (out & E & _). vm_compute in E. discriminate E.
Qed.

(** C6, amended. For every buffer whose length is a multiple of 3,
    [apply_invert_rgb_simd] returns a buffer of the same length, every
    output sample is 255 minus the input sample at the same position, and
    inverting the result returns the input. *)
Theorem invert_involution (B : list uchar) :
  Z.of_nat (length B) mod 3 = 0 ->
  exists out,
    apply_invert_rgb_simd B = Returned out
    /\ length out = length B
    /\ (forall (i : nat) (s : uchar), B !! i = Some s ->
          exists o, out !! i = Some o /\ uchar_val o = 255 - uchar_val s)
    /\ apply_invert_rgb_simd out = Returned B.
Proof.
  intros H3. exists (Spec.invert B).
  assert (HL : length (Spec.invert B) = length B) by apply length_fmap.
  split; [exact (invert_loops B H3)|].
  split; [exact HL|].
  split.
  - intros i s Hs. exists (Spec.invert_sample s). split.
    + unfold Spec.invert. rewrite list_lookup_fmap, Hs. reflexivity.
    + apply invert_sample_val.
  - rewrite invert_loops by (rewrite HL; exact H3).
    rewrite invert_involutive. reflexivity.
Qed.

(** The theorem at 57 samples: three groups of sixteen and nine samples
    one at a time. *)
Lemma invert_involution_witness :
  exists out,
    apply_invert_rgb_simd Examples.nineteen_pixels = Returned out
    /\ apply_invert_rgb_simd out = Returned Examples.nineteen_pixels.
Proof.
  destruct (invert_involution Examples.nineteen_pixels)
    as (out & E & _ & _ & R); [vm_compute; reflexivity|].
  exists out. split; [exact E | exact R].
Defined.

(** C7, as stated, fails: the greyscale of one red pixel is not [[76]]. *)
Lemma red_pixel_is_not_76 :
  apply_greyscale_rgb_simd Examples.red_pixel <> Returned [to_uchar 76].
Proof.
  vm_compute. discriminate.
Qed.

(** C7, amended. For the one-pixel buffer [[255, 0, 0]] the greyscale
    transform yields [[77]], which is [(77*255 + 128) >> 8], and the invert
    transform yields [[0, 255, 255]]. *)
Theorem red_pixel_scenario :
  apply_greyscale_rgb_simd Examples.red_pixel = Returned [to_uchar 77]
  /\ Spec.luminance 255 0 0 = 77
  /\ Z.shiftr (77 * 255 + 128) 8 = 77
  /\ apply_invert_rgb_simd Examples.red_pixel
     = Returned [to_uchar 0; to_uchar 255; to_uchar 255].
Proof.
  repeat split; vm_compute; reflexivity.
Qed.

(** C8 at its failing input. The 1 x 1 black image is a flat image whose
    buffer has width*height*3 samples, and at strength 4000000000 the blur
    returns no buffer, so none that has the samples of the input within
    rounding: the kernel size [2 * radius + 1] leaves the range of [int]
    and [std::length_error] is thrown. The same happens for the flat image
    of every colour and every number of pixels, whatever the
    dimensions. *)
Theorem flat_blur_strength_4e9 (exp : float -> float) :
  Spec.flat_image 1 Byte.x00 Byte.x00 Byte.x00 = Examples.black_pixel
  /\ 1 * 1 * 3 = Z.of_nat (length Examples.black_pixel)
  /\ apply_gaussian_rgb exp Examples.black_pixel 1 1 4000000000
     = Threw length_error
  /\ (~ exists out,
         apply_gaussian_rgb exp Examples.black_pixel 1 1 4000000000
         = Returned out
         /\ Spec.unchanged_within_rounding Examples.black_pixel out)
  /\ (forall (n : nat) (r g b : uchar) (w h : Z),
        apply_gaussian_rgb exp (Spec.flat_image n r g b) w h 4000000000
        = Threw length_error).
Proof.
  split; [reflexivity|].
  split; [vm_compute; reflexivity|].
  split; [vm_compute; reflexivity|].
  split.
  - intros (out & E & _). vm_compute in E. discriminate E.
  - intros n r g b w h. apply gaussian_kernel_too_large.
    + rewrite flat_image_length, Nat2Z.inj_mul, Z.mul_comm.
      apply Z.mod_mul. discriminate.
    + vm_compute. reflexivity.
Qed.

(** C9 at its failing input. With width = height = 65536 >= 1 and
    width*height*3 = len(B), the very first neighbour lookup of
    [apply_laplacian_rgb], [get_grey] at pixel (0, 0), indexes an empty
    [grey]: every index is outside it. *)
Theorem laplacian_65536_reads_outside :
  1 <= 65536
  /\ Z.of_nat (length Examples.black_2pow32) = 65536 * 65536 * 3
  /\ size_t_of_int (int_mul (int_of_unsigned 65536) (int_of_unsigned 65536))
     = 0
  /\ (forall px py, get_grey [] 65536 65536 px py = OutOfBounds)
  /\ apply_laplacian_rgb Examples.black_2pow32 65536 65536 = OutOfBounds.
Proof.
  split; [lia|]. split; [exact black_2pow32_length|].
  split; [vm_compute; reflexivity|].
  split; [|exact (laplacian_65536 _ black_2pow32_length)].
  intros px py. unfold get_grey. rewrite load_outside; [reflexivity|].
  simpl. pose proof (wrap_int_range
    (int_mul (clamp py 0 (int_sub 65536 1)) 65536
     + clamp px 0 (int_sub 65536 1))) as Hr.
  unfold int_add.
  destruct (Z.lt_ge_cases
    (wrap_int (int_mul (clamp py 0 (int_sub 65536 1)) 65536
               + clamp px 0 (int_sub 65536 1))) 0); [left|right]; lia.
Qed.

(** C10. On every valid buffer the grouped path followed by the remainder
    path of greyscale (groups of 8 pixels) and of invert (groups of 16
    samples, subtracted from an all-ones mask) writes exactly the bytes of
    the per-sample formula, which are also the bytes that the
    one-at-a-time loop writes when it processes the whole buffer. *)
Theorem grouped_paths_match_scalar (B : list uchar) :
  Z.of_nat (length B) mod 3 = 0 ->
  apply_greyscale_rgb_simd B = Returned (Spec.greyscale B)
  /\ apply_greyscale_rgb_simd B = Spec.greyscale_one_at_a_time B
  /\ apply_invert_rgb_simd B = Returned (Spec.invert B)
  /\ apply_invert_rgb_simd B = Spec.invert_one_at_a_time B.
Proof.
  intros H3. pose proof (multiple_of_3 B H3) as Hn.
  rewrite (greyscale_loops B _ Hn), (greyscale_scalar_only B _ Hn).
  rewrite (invert_loops B H3), (invert_scalar_only B).
  repeat split.
Qed.

(** The theorem at nineteen pixels, where both filters take both paths. *)
Lemma grouped_paths_match_scalar_witness :
  apply_greyscale_rgb_simd Examples.nineteen_pixels
  = Spec.greyscale_one_at_a_time Examples.nineteen_pixels
  /\ apply_invert_rgb_simd Examples.nineteen_pixels
     = Spec.invert_one_at_a_time Examples.nineteen_pixels.
Proof.
  destruct (grouped_paths_match_scalar Examples.nineteen_pixels)
    as (_ & G & _ & I); [vm_compute; reflexivity|].
  split; [exact G | exact I].
Defined.

(** * Further properties of the code *)

(** ** Edge-clamped reads *)

Section ClampedReads.

Lemma wrap_int_idempotent (z : Z) : wrap_int (wrap_int z) = wrap_int z.
Proof. apply wrap_int_small, wrap_int_range. Qed.

(** The index of channel [c] of pixel [(x, y)] in a buffer of [n] samples
    per pixel. *)
Lemma pixel_index (w h n x y c : Z) :
  0 <= x < w -> 0 <= y < h -> 0 <= c < n ->
  0 <= (y * w + x) * n + c < w * h * n.
Proof.
  intros Hx Hy Hc. pose proof (grid_index w h x y Hx Hy) as Hg.
  assert (H : (y * w + x) * n <= (w * h - 1) * n)
    by (apply Z.mul_le_mono_nonneg_r; lia).
  split; [apply Z.add_nonneg_nonneg; [apply Z.mul_nonneg_nonneg|]; lia|].
  replace (w * h * n) with ((w * h - 1) * n + n) by ring. lia.
Qed.

(** Clamping leaves a coordinate of the image where it is. *)
Lemma clamp_inside (v n : Z) :
  1 <= n <= INT_MAX -> 0 <= v < n -> clamp v 0 (int_sub n 1) = v.
Proof.
  intros Hn Hv.
  rewrite int_sub_small by (unfold INT_MIN, INT_MAX in *; lia).
  rewrite clamp_nearest by lia. apply nearest_inside. lia.
Qed.

End ClampedReads.

(** X1. [get_pixel_clamped] replicates the edges and stays inside the
    buffer: for an image of at least one pixel whose [width * height *
    channels] samples fit [int], and for any coordinates at all, it returns
    the sample of the nearest pixel of the image, which is also what it
    returns at the coordinates of that pixel. *)
Theorem get_pixel_clamped_replicates_edges (src : list uchar)
    (x y width height channel channels : Z) :
  1 <= width -> 1 <= height -> 0 <= channel < channels ->
  width * height * channels <= INT_MAX ->
  Z.of_nat (length src) = width * height * channels ->
  let cx := Spec.nearest x (width - 1) in
  let cy := Spec.nearest y (height - 1) in
  exists v,
    get_pixel_clamped src x y width height channel channels = Returned v
    /\ src !! Z.to_nat ((cy * width + cx) * channels + channel) = Some v
    /\ get_pixel_clamped src cx cy width height channel channels
       = Returned v.
Proof.
  intros Hw Hh Hc Hfit Hlen cx cy.
  assert (Hx : 0 <= cx < width) by (unfold cx, Spec.nearest; lia).
  assert (Hy : 0 <= cy < height) by (unfold cy, Spec.nearest; lia).
  pose proof (pixel_index width height channels cx cy channel Hx Hy Hc) as Hi.
  pose proof (grid_index width height cx cy Hx Hy) as Hg.
  assert (Hwh : width * height <= width * height * channels) by nia.
  assert (Hwm : width <= width * height) by nia.
  assert (Hhm : height <= width * height) by nia.
  assert (Hrow : 0 <= (cy * width + cx) * channels
                 <= (cy * width + cx) * channels + channel) by nia.
  assert (Hyw : 0 <= cy * width <= cy * width + cx) by nia.
  assert (E : forall x' y', Spec.nearest x' (width - 1) = cx ->
            Spec.nearest y' (height - 1) = cy ->
            get_pixel_clamped src x' y' width height channel channels
            = load src ((cy * width + cx) * channels + channel)).
  { intros x' y' Ex Ey. unfold get_pixel_clamped.
    rewrite (int_sub_small width 1), (int_sub_small height 1)
      by (unfold INT_MIN, INT_MAX in *; lia).
    rewrite !clamp_nearest by lia. rewrite Ex, Ey.
    rewrite (int_mul_small cy width) by (unfold INT_MIN, INT_MAX in *; lia).
    rewrite (int_add_small (cy * width) cx)
      by (unfold INT_MIN, INT_MAX in *; lia).
    rewrite (int_mul_small (cy * width + cx) channels)
      by (unfold INT_MIN, INT_MAX in *; lia).
    rewrite (int_add_small ((cy * width + cx) * channels) channel)
      by (unfold INT_MIN, INT_MAX in *; lia).
    reflexivity. }
  destruct (load_inside src ((cy * width + cx) * channels + channel))
    as (v & Hv & Hl); [lia|].
  exists v. split; [|split].
  - rewrite (E x y) by reflexivity. exact Hl.
  - exact Hv.
  - rewrite (E cx cy) by (apply nearest_inside; lia). exact Hl.
Qed.

(** The theorem on a row of nineteen RGB pixels, left of the row and below
    it: the read is that of pixel (0, 0). *)
Lemma get_pixel_clamped_replicates_edges_witness :
  get_pixel_clamped Examples.nineteen_pixels (-4) 7 19 1 2 3
  = get_pixel_clamped Examples.nineteen_pixels 0 0 19 1 2 3.
Proof.
  destruct (get_pixel_clamped_replicates_edges Examples.nineteen_pixels
              (-4) 7 19 1 2 3) as (v & E1 & _ & E2);
    [lia | lia | lia | vm_compute; discriminate | vm_compute; reflexivity |].
  rewrite E1. symmetry. exact E2.
Defined.

(** X2. The neighbour reads that the Laplacian and the two passes of the
    blur write out by hand are reads of [get_pixel_clamped]: [get_grey] is
    the helper on a 1-channel buffer, a tap of the horizontal pass is the
    helper at [(x + k, y)] and a tap of the vertical pass is the helper at
    [(x, y + k)], on 3 channels. *)
Theorem neighbour_reads_are_get_pixel_clamped (kernel : list float)
    (radius : Z) (p : list uchar) (w h x y c k : Z) (sum : float) :
  1 <= w <= INT_MAX -> 1 <= h <= INT_MAX -> 0 <= x < w -> 0 <= y < h ->
  (forall px py,
     get_grey p w h px py
     = (v ← get_pixel_clamped p px py w h 0 1; mret (uchar_val v)))
  /\ horizontal_tap kernel radius p w y x c k sum
     = (weight ← load kernel (int_add k radius);
        v ← get_pixel_clamped p (int_add x k) y w h c channels;
        mret (sum + weight * Double.of_int (uchar_val v))%float)
  /\ vertical_tap kernel radius p w h y x c k sum
     = (weight ← load kernel (int_add k radius);
        v ← get_pixel_clamped p x (int_add y k) w h c channels;
        mret (sum + weight * Double.of_int (uchar_val v))%float).
Proof.
  intros Hw Hh Hx Hy. split; [|split].
  - intros px py. unfold get_grey, get_pixel_clamped, int_add, int_mul.
    rewrite Z.mul_1_r, Z.add_0_r, !wrap_int_idempotent. reflexivity.
  - unfold horizontal_tap, get_pixel_clamped.
    rewrite (clamp_inside y h Hh Hy). reflexivity.
  - unfold vertical_tap, get_pixel_clamped.
    rewrite (clamp_inside x w Hw Hx). reflexivity.
Qed.

(** The theorem on the 1 x 1 image. *)
Lemma neighbour_reads_are_get_pixel_clamped_witness :
  get_grey [Byte.x07] 1 1 5 (-5)
  = (v ← get_pixel_clamped [Byte.x07] 5 (-5) 1 1 0 1; mret (uchar_val v)).
Proof.
  destruct (neighbour_reads_are_get_pixel_clamped [] 0 [Byte.x07]
              1 1 0 0 0 0 0%float) as (G & _);
    [unfold INT_MAX; lia | unfold INT_MAX; lia | lia | lia |].
  exact (G 5 (-5)).
Defined.

(** ** Greyscale values *)

Section GreyscaleValues.

(** The weights add up to 256, so the luminance lies between any two
    bounds of the three channels. *)
Lemma luminance_between (R G B lo hi : Z) :
  lo <= R <= hi -> lo <= G <= hi -> lo <= B <= hi ->
  lo <= Spec.luminance R G B <= hi.
Proof.
  intros HR HG HB. unfold Spec.luminance.
  rewrite Z.shiftr_div_pow2 by lia. change (2 ^ 8) with 256.
  split.
  - apply Z.div_le_lower_bound; lia.
  - assert (H : 77 * R + 150 * G + 29 * B + 128 < 256 * (hi + 1)) by lia.
    pose proof (Z.div_lt_upper_bound _ 256 (hi + 1) ltac:(lia) H). lia.
Qed.

(** The luminance of the complementary colour is the complement of the
    luminance, or one more. *)
Lemma luminance_complement (R G B : Z) :
  let Y := Spec.luminance R G B in
  let Y' := Spec.luminance (255 - R) (255 - G) (255 - B) in
  Y' = 255 - Y \/ Y' = 256 - Y.
Proof.
  unfold Spec.luminance. rewrite !Z.shiftr_div_pow2 by lia.
  change (2 ^ 8) with 256.
  set (S := 77 * R + 150 * G + 29 * B).
  replace (77 * (255 - R) + 150 * (255 - G) + 29 * (255 - B) + 128)
    with (256 - (S + 128) + 255 * 256) by (unfold S; ring).
  rewrite Z.div_add by lia.
  pose proof (Z.div_mod (S + 128) 256 ltac:(lia)) as Hd.
  pose proof (Z.mod_pos_bound (S + 128) 256 ltac:(lia)) as Hm.
  set (q := (S + 128) / 256) in *. set (t := (S + 128) mod 256) in *.
  destruct (Z.eq_dec t 0) as [Ht|Ht].
  - right. replace (256 - (S + 128)) with ((1 - q) * 256) by lia.
    rewrite Z.div_mul by lia. lia.
  - left. replace (256 - (S + 128)) with ((256 - t) + (- q) * 256) by lia.
    rewrite Z.div_add by lia. rewrite Z.div_small by lia. lia.
Qed.

Lemma grey_as_rgb_cons (v : uchar) (G : list uchar) :
  Spec.grey_as_rgb (v :: G) = v :: v :: v :: Spec.grey_as_rgb G.
Proof. reflexivity. Qed.

Lemma grey_as_rgb_length (G : list uchar) :
  length (Spec.grey_as_rgb G) = (3 * length G)%nat.
Proof.
  induction G as [|v G IH]; [reflexivity|].
  rewrite grey_as_rgb_cons. simpl. rewrite IH. lia.
Qed.

Lemma greyscale_grey_as_rgb (G : list uchar) :
  Spec.greyscale (Spec.grey_as_rgb G) = G.
Proof.
  induction G as [|v G IH]; [reflexivity|].
  rewrite grey_as_rgb_cons. simpl. rewrite IH. f_equal.
  apply uchar_val_inj. rewrite uchar_val_to_uchar.
  pose proof (uchar_val_range v) as Hv.
  pose proof (luminance_between (uchar_val v) (uchar_val v) (uchar_val v)
                (uchar_val v) (uchar_val v)) as H.
  rewrite Z.mod_small; lia.
Qed.

Lemma greyscale_app (B1 B2 : list uchar) (n : nat) :
  length B1 = (3 * n)%nat ->
  Spec.greyscale (B1 ++ B2) = Spec.greyscale B1 ++ Spec.greyscale B2.
Proof.
  revert B1. induction n as [|n IH]; intros B1 H.
  - destruct B1; [reflexivity|simpl in H; lia].
  - destruct B1 as [|r [|g [|b B1]]]; simpl in H; try lia.
    simpl. rewrite IH by lia. reflexivity.
Qed.

(** Pixel by pixel, the greyscale of the inverted buffer against the
    greyscale of the buffer. *)
Lemma greyscale_invert_lookup (B : list uchar) :
  forall (p : nat) (y y' : uchar),
    Spec.greyscale B !! p = Some y ->
    Spec.greyscale (Spec.invert B) !! p = Some y' ->
    uchar_val y' = 255 - uchar_val y \/ uchar_val y' = 256 - uchar_val y.
Proof.
  induction B as [| |a b|r g b l IH] using list_ind3;
    try (intros p y y' H; destruct p; discriminate H).
  intros [|p] y y' Hy Hy'.
  - change (Some (luma r g b) = Some y) in Hy.
    change (Some (luma (Spec.invert_sample r) (Spec.invert_sample g)
                    (Spec.invert_sample b)) = Some y') in Hy'.
    injection Hy as <-. injection Hy' as <-.
    rewrite !uchar_val_luma, !invert_sample_val.
    apply luminance_complement.
  - exact (IH p y y' Hy Hy').
Qed.

End GreyscaleValues.

(** X3. Every sample of the greyscale lies between the smallest and the
    largest of the three samples of its pixel; so a pixel whose three
    samples are equal keeps that value. *)
Theorem greyscale_between_channels (B : list uchar) :
  Z.of_nat (length B) mod 3 = 0 ->
  exists out,
    apply_greyscale_rgb_simd B = Returned out
    /\ forall (p : nat) (r g b y : uchar),
         B !! (3 * p)%nat = Some r -> B !! (3 * p + 1)%nat = Some g ->
         B !! (3 * p + 2)%nat = Some b -> out !! p = Some y ->
         Z.min (uchar_val r) (Z.min (uchar_val g) (uchar_val b))
         <= uchar_val y
         <= Z.max (uchar_val r) (Z.max (uchar_val g) (uchar_val b)).
Proof.
  intros H3. exists (Spec.greyscale B).
  split; [exact (greyscale_loops B _ (multiple_of_3 B H3))|].
  intros p r g b y Hr Hg Hb Hy.
  assert (Hlt : (3 * p + 2 < length B)%nat)
    by (apply lookup_lt_is_Some; eexists; exact Hb).
  destruct (greyscale_pixel B p Hlt) as (r' & g' & b' & Hr' & Hg' & Hb' & E).
  rewrite Hr in Hr'. rewrite Hg in Hg'. rewrite Hb in Hb'. rewrite Hy in E.
  injection Hr' as <-. injection Hg' as <-. injection Hb' as <-.
  injection E as ->. rewrite uchar_val_luma.
  apply luminance_between; lia.
Qed.

(** The theorem at one red pixel: its grey value is at most 255 and at
    least 0, the values of its channels. *)
Lemma greyscale_between_channels_witness :
  exists out, apply_greyscale_rgb_simd Examples.red_pixel = Returned out.
Proof.
  destruct (greyscale_between_channels Examples.red_pixel)
    as (out & E & _); [vm_compute; reflexivity|].
  exists out. exact E.
Defined.

(** X4. Greyscale undoes the expansion of a grey buffer to RGB: when every
    sample of [G] is written three times, as the three channels of one
    pixel, the greyscale of the result is [G], whatever its length. *)
Theorem greyscale_of_grey_image (G : list uchar) :
  apply_greyscale_rgb_simd (Spec.grey_as_rgb G) = Returned G
  /\ length (Spec.grey_as_rgb G) = (3 * length G)%nat.
Proof.
  split; [|apply grey_as_rgb_length].
  rewrite (greyscale_loops _ _ (grey_as_rgb_length G)).
  rewrite greyscale_grey_as_rgb. reflexivity.
Qed.

(** X5. Greyscale after invert: the grey value of every pixel of the
    inverted image is the complement [255 - Y] of the grey value [Y] of
    the pixel, or one more. *)
Theorem greyscale_of_inverted (B : list uchar) :
  Z.of_nat (length B) mod 3 = 0 ->
  exists inverted grey grey',
    apply_invert_rgb_simd B = Returned inverted
    /\ apply_greyscale_rgb_simd B = Returned grey
    /\ apply_greyscale_rgb_simd inverted = Returned grey'
    /\ length grey' = length grey
    /\ forall (p : nat) (y y' : uchar),
         grey !! p = Some y -> grey' !! p = Some y' ->
         uchar_val y' = 255 - uchar_val y
         \/ uchar_val y' = 256 - uchar_val y.
Proof.
  intros H3. pose proof (multiple_of_3 B H3) as Hn.
  assert (Hi : length (Spec.invert B)
               = (3 * Z.to_nat (Z.of_nat (length B) / 3))%nat)
    by (unfold Spec.invert; rewrite length_fmap; exact Hn).
  exists (Spec.invert B), (Spec.greyscale B),
    (Spec.greyscale (Spec.invert B)).
  split; [exact (invert_loops B H3)|].
  split; [exact (greyscale_loops B _ Hn)|].
  split; [exact (greyscale_loops _ _ Hi)|].
  split.
  - apply Nat2Z.inj. rewrite !greyscale_length.
    unfold Spec.invert. rewrite length_fmap. reflexivity.
  - apply greyscale_invert_lookup.
Qed.

(** The theorem at nineteen pixels. *)
Lemma greyscale_of_inverted_witness :
  exists inverted grey',
    apply_invert_rgb_simd Examples.nineteen_pixels = Returned inverted
    /\ apply_greyscale_rgb_simd inverted = Returned grey'.
Proof.
  destruct (greyscale_of_inverted Examples.nineteen_pixels)
    as (inverted & grey & grey' & E1 & _ & E2 & _);
    [vm_compute; reflexivity|].
  exists inverted, grey'. split; [exact E1 | exact E2].
Defined.

(** X6. Greyscale and invert work strip by strip: for two buffers of whole
    pixels, the transform of their concatenation is the concatenation of
    their transforms, wherever the boundary falls with respect to the
    groups of 8 pixels and of 16 samples. *)
Theorem transforms_of_concatenation (B1 B2 : list uchar) :
  Z.of_nat (length B1) mod 3 = 0 -> Z.of_nat (length B2) mod 3 = 0 ->
  exists g1 g2 i1 i2,
    apply_greyscale_rgb_simd B1 = Returned g1
    /\ apply_greyscale_rgb_simd B2 = Returned g2
    /\ apply_greyscale_rgb_simd (B1 ++ B2) = Returned (g1 ++ g2)
    /\ apply_invert_rgb_simd B1 = Returned i1
    /\ apply_invert_rgb_simd B2 = Returned i2
    /\ apply_invert_rgb_simd (B1 ++ B2) = Returned (i1 ++ i2).
Proof.
  intros H1 H2.
  pose proof (multiple_of_3 B1 H1) as Hn1.
  pose proof (multiple_of_3 B2 H2) as Hn2.
  assert (H12 : Z.of_nat (length (B1 ++ B2)) mod 3 = 0).
  { rewrite length_app, Nat2Z.inj_add, Z.add_mod, H1, H2 by lia.
    reflexivity. }
  exists (Spec.greyscale B1), (Spec.greyscale B2),
    (Spec.invert B1), (Spec.invert B2).
  split; [exact (greyscale_loops B1 _ Hn1)|].
  split; [exact (greyscale_loops B2 _ Hn2)|].
  split.
  - rewrite (greyscale_loops _ _ (multiple_of_3 _ H12)).
    rewrite (greyscale_app B1 B2 _ Hn1). reflexivity.
  - split; [exact (invert_loops B1 H1)|].
    split; [exact (invert_loops B2 H2)|].
    rewrite (invert_loops _ H12). unfold Spec.invert.
    rewrite fmap_app. reflexivity.
Qed.

(** The theorem at nineteen pixels followed by one pixel: the boundary
    falls inside a group of either filter. *)
Lemma transforms_of_concatenation_witness :
  exists g1 g2,
    apply_greyscale_rgb_simd
      (Examples.nineteen_pixels ++ Examples.red_pixel)
    = Returned (g1 ++ g2).
Proof.
  destruct (transforms_of_concatenation Examples.nineteen_pixels
              Examples.red_pixel)
    as (g1 & g2 & _ & _ & _ & _ & E & _);
    [vm_compute; reflexivity | vm_compute; reflexivity |].
  exists g1, g2. exact E.
Defined.

(** ** The kernel, whenever it is returned *)

(** X7. Whenever [generate_gaussian_kernel] returns, for any sigma at all
    and any [exp], the radius is at least 1, the kernel has [2 * radius +
    1] weights and the weights at opposite offsets are equal; this holds
    also where the [int] square of the offset wraps. *)
Theorem returned_kernel_is_symmetric (exp : float -> float) (sigma : float)
    (kernel : list float) (radius : Z) :
  generate_gaussian_kernel exp sigma = Returned (kernel, radius) ->
  1 <= radius
  /\ Z.of_nat (length kernel) = 2 * radius + 1
  /\ forall i, 0 <= i <= 2 * radius ->
       kernel !! Z.to_nat (2 * radius - i) = kernel !! Z.to_nat i.
Proof.
  intros H.
  destruct (generate_gaussian_kernel_returns exp sigma kernel radius H)
    as (Hr & H1 & Hfit & Hlen).
  split; [exact H1|]. split; [exact Hlen|].
  intros i Hi.
  pose proof (radius_spec sigma) as Hs. cbv zeta in Hs.
  rewrite generate_gaussian_kernel_in_int_range in H
    by (rewrite Hs, <- Hr; exact Hfit).
  rewrite Hs, <- Hr in H. injection H as <-.
  rewrite !list_lookup_fmap, !lookup_seqZ_lt by lia. simpl.
  rewrite !Z2Nat.id, !Z.add_0_l by lia.
  rewrite kernel_exponent_symmetric by (unfold INT_MAX in *; lia).
  reflexivity.
Qed.

(** The theorem for sigma = 1 and a constant in the place of [exp]: radius
    3 and seven weights. *)
Lemma returned_kernel_is_symmetric_witness :
  exists kernel,
    generate_gaussian_kernel (fun _ => 1%float) 1 = Returned (kernel, 3)
    /\ Z.of_nat (length kernel) = 2 * 3 + 1.
Proof.
  eexists. split; [vm_compute; reflexivity|].
  apply (returned_kernel_is_symmetric (fun _ => 1%float) 1).
  vm_compute. reflexivity.
Defined.

(** ** The Laplacian and the other transforms *)

(** X8. Within the range of [int], the intermediate greyscale of the
    Laplacian is the buffer that [apply_greyscale_rgb_simd] returns: the
    edge map has one sample per pixel, and the sample of pixel [(x, y)] is
    [clamp(|4*centre - top - bottom - left - right|, 0, 255)] over the
    samples of that greyscale buffer, with neighbours edge-clamped. *)
Theorem laplacian_of_the_greyscale (B : list uchar) (w h : Z) :
  1 <= w -> 1 <= h -> w * h * 3 = Z.of_nat (length B) ->
  w * h <= INT_MAX ->
  exists grey out,
    apply_greyscale_rgb_simd B = Returned grey
    /\ apply_laplacian_rgb B w h = Returned out
    /\ Z.of_nat (length grey) = w * h
    /\ Z.of_nat (length out) = w * h
    /\ forall x y, 0 <= x < w -> 0 <= y < h ->
         out !! Z.to_nat (y * w + x)
         = Some (to_uchar (Spec.laplacian_sample grey w h x y)).
Proof.
  intros Hw Hh HB Hfit.
  assert (H3 : Z.of_nat (length B) mod 3 = 0)
    by (rewrite <- HB; apply Z.mod_mul; lia).
  exists (Spec.greyscale B), (Spec.laplacian B w h).
  split; [exact (greyscale_loops B _ (multiple_of_3 B H3))|].
  split; [exact (laplacian_in_int_range B w h Hw Hh Hfit HB)|].
  split; [exact (laplacian_grey_length B w h Hw Hh Hfit HB)|].
  split.
  - rewrite (laplacian_res_length B w h Hw Hh Hfit HB).
    exact (pixel_count B w h Hw Hh Hfit HB).
  - intros x y Hx Hy.
    exact (laplacian_res_lookup B w h Hw Hh Hfit HB x y Hx Hy).
Qed.

(** The theorem on a row of nineteen pixels. *)
Lemma laplacian_of_the_greyscale_witness :
  exists grey out,
    apply_greyscale_rgb_simd Examples.nineteen_pixels = Returned grey
    /\ apply_laplacian_rgb Examples.nineteen_pixels 19 1 = Returned out
    /\ Z.of_nat (length out) = 19 * 1.
Proof.
  destruct (laplacian_of_the_greyscale Examples.nineteen_pixels 19 1)
    as (grey & out & E1 & E2 & _ & L & _);
    [lia | lia | vm_compute; reflexivity | vm_compute; discriminate |].
  exists grey, out. split; [exact E1|]. split; [exact E2 | exact L].
Defined.

(** X9. A flat field has no edges: within the range of [int] the Laplacian
    of a uniform-colour image is zero at every pixel; in particular the
    edge map of every 1 x 1 image is [[0]]. *)
Theorem laplacian_of_flat_image (w h : Z) (r g b : uchar) :
  1 <= w -> 1 <= h -> w * h <= INT_MAX ->
  apply_laplacian_rgb (Spec.flat_image (Z.to_nat (w * h)) r g b) w h
  = Returned (replicate (Z.to_nat (w * h)) Byte.x00)
  /\ apply_laplacian_rgb [r; g; b] 1 1 = Returned [Byte.x00].
Proof.
  intros Hw Hh Hfit.
  assert (E : forall w h, 1 <= w -> 1 <= h -> w * h <= INT_MAX ->
            apply_laplacian_rgb (Spec.flat_image (Z.to_nat (w * h)) r g b)
              w h
            = Returned (replicate (Z.to_nat (w * h)) Byte.x00)).
  { clear. intros w h Hw Hh Hfit.
    rewrite laplacian_in_int_range; try assumption.
    - rewrite laplacian_flat by assumption. reflexivity.
    - rewrite flat_image_length. nia. }
  split; [exact (E w h Hw Hh Hfit)|].
  exact (E 1 1 ltac:(lia) ltac:(lia) ltac:(unfold INT_MAX; lia)).
Qed.

(** The theorem on a 4 x 3 red image. *)
Lemma laplacian_of_flat_image_witness :
  apply_laplacian_rgb
    (Spec.flat_image (Z.to_nat (4 * 3)) Byte.xff Byte.x00 Byte.x00) 4 3
  = Returned (replicate (Z.to_nat (4 * 3)) Byte.x00).
Proof.
  apply (laplacian_of_flat_image 4 3 Byte.xff Byte.x00 Byte.x00);
    [lia | lia | vm_compute; discriminate].
Defined.

(** X10. The edge map does not see colour: within the range of [int], the
    Laplacian of an image is the Laplacian of its greyscale written back
    as an RGB image. *)
Theorem laplacian_sees_only_greyscale (B : list uchar) (w h : Z) :
  1 <= w -> 1 <= h -> w * h * 3 = Z.of_nat (length B) ->
  w * h <= INT_MAX ->
  exists grey out,
    apply_greyscale_rgb_simd B = Returned grey
    /\ apply_laplacian_rgb B w h = Returned out
    /\ apply_laplacian_rgb (Spec.grey_as_rgb grey) w h = Returned out.
Proof.
  intros Hw Hh HB Hfit.
  assert (H3 : Z.of_nat (length B) mod 3 = 0)
    by (rewrite <- HB; apply Z.mod_mul; lia).
  exists (Spec.greyscale B), (Spec.laplacian B w h).
  split; [exact (greyscale_loops B _ (multiple_of_3 B H3))|].
  split; [exact (laplacian_in_int_range B w h Hw Hh Hfit HB)|].
  rewrite laplacian_in_int_range; try assumption.
  - unfold Spec.laplacian. rewrite greyscale_grey_as_rgb. reflexivity.
  - rewrite grey_as_rgb_length.
    pose proof (laplacian_grey_length B w h Hw Hh Hfit HB). lia.
Qed.

(** The theorem on a row of nineteen pixels. *)
Lemma laplacian_sees_only_greyscale_witness :
  exists grey out,
    apply_greyscale_rgb_simd Examples.nineteen_pixels = Returned grey
    /\ apply_laplacian_rgb (Spec.grey_as_rgb grey) 19 1 = Returned out.
Proof.
  destruct (laplacian_sees_only_greyscale Examples.nineteen_pixels 19 1)
    as (grey & out & E1 & _ & E2);
    [lia | lia | vm_compute; reflexivity | vm_compute; discriminate |].
  exists grey, out. split; [exact E1 | exact E2].
Defined.

(** ** The invalid-argument error *)

(** X11. The invalid-argument error depends on the length of the buffer
    alone: a buffer of whole pixels never gets it from any of the four
    filters, whatever the width, the height and the strength, and every
    other buffer gets it from all four. *)
Theorem invalid_argument_for_partial_pixels_only (exp : float -> float)
    (B : list uchar) (w h strength : Z) :
  (Z.of_nat (length B) mod 3 = 0
   /\ apply_greyscale_rgb_simd B <> Threw invalid_argument
   /\ apply_invert_rgb_simd B <> Threw invalid_argument
   /\ apply_gaussian_rgb exp B w h strength <> Threw invalid_argument
   /\ apply_laplacian_rgb B w h <> Threw invalid_argument)
  \/ (Z.of_nat (length B) mod 3 <> 0
      /\ apply_greyscale_rgb_simd B = Threw invalid_argument
      /\ apply_invert_rgb_simd B = Threw invalid_argument
      /\ apply_gaussian_rgb exp B w h strength = Threw invalid_argument
      /\ apply_laplacian_rgb B w h = Threw invalid_argument).
Proof.
  destruct (invalid_argument_iff exp B w h strength) as (G & I & S & L).
  destruct (Z.eq_dec (Z.of_nat (length B) mod 3) 0) as [H|H].
  - left. split; [exact H|].
    repeat split; intros E;
      [apply G in E | apply I in E | apply S in E | apply L in E];
      exact (E H).
  - right. split; [exact H|].
    repeat split; [apply G | apply I | apply S | apply L]; exact H.
Qed.

(** ** The blur, sample by sample *)

Section BlurSamples.

Lemma pass_sample (w h x y c : Z) (value : Z -> Z -> Z -> uchar) :
  0 <= x < w -> 0 <= y < h -> 0 <= c < 3 ->
  Spec.pass w h value !! Z.to_nat ((y * w + x) * 3 + c)
  = Some (value x y c).
Proof.
  intros Hx Hy Hc. pose proof (channel_index w h x y c Hx Hy Hc) as Hi.
  pose proof (grid_index w h x y Hx Hy) as Hg.
  unfold Spec.pass. rewrite list_lookup_fmap.
  rewrite lookup_seqZ_lt by lia. simpl.
  rewrite Z2Nat.id, Z.add_0_l by lia.
  rewrite (div_row_major (y * w + x) c 3), (mod_row_major (y * w + x) c 3)
    by lia.
  rewrite (div_row_major y x w), (mod_row_major y x w) by lia.
  reflexivity.
Qed.

Lemma pass_samples (w h : Z) (value : Z -> Z -> Z -> uchar) :
  0 <= w * h * 3 ->
  Z.of_nat (length (Spec.pass w h value)) = w * h * 3.
Proof.
  intros H. unfold Spec.pass. rewrite length_fmap, length_seqZ. lia.
Qed.

Lemma sample_of_pass (w h x y c : Z) (value : Z -> Z -> Z -> uchar) :
  0 <= x < w -> 0 <= y < h -> 0 <= c < 3 ->
  Spec.sample (Spec.pass w h value) w x y c = uchar_val (value x y c).
Proof.
  intros Hx Hy Hc. unfold Spec.sample.
  rewrite (pass_sample w h x y c value Hx Hy Hc). reflexivity.
Qed.

Lemma fold_left_ext_in {A X} (f g : A -> X -> A) (l : list X) :
  (forall x, x ∈ l -> forall a, f a x = g a x) ->
  forall a, fold_left f l a = fold_left g l a.
Proof.
  induction l as [|x l IH]; intros H a; [reflexivity|].
  simpl. rewrite (H x) by apply list_elem_of_here.
  apply IH. intros x' Hx'. apply H. apply list_elem_of_further, Hx'.
Qed.

(** A convolution looks at the samples at the offsets [-radius .. radius]
    only. *)
Lemma convolve_ext (kernel : list float) (radius : Z) (along along' : Z -> Z) :
  (forall k, - radius <= k <= radius -> along k = along' k) ->
  Spec.convolve kernel radius along = Spec.convolve kernel radius along'.
Proof.
  intros H. unfold Spec.convolve. do 2 f_equal.
  apply fold_left_ext_in. intros k Hk sum.
  apply elem_of_seqZ in Hk. rewrite (H k) by lia. reflexivity.
Qed.

End BlurSamples.

(** X12. Within the range of [int] the blur is two passes, sample by
    sample: there is an intermediate buffer, of the length of the input,
    whose sample of channel [c] of pixel [(x, y)] is the convolution along
    the row of the input, x-coordinates edge-clamped, and the sample of the
    output, also of the length of the input, is the convolution along the
    column of that intermediate buffer, y-coordinates edge-clamped; each
    convolution is clamped to [[0, 255]] and truncated. *)
Theorem gaussian_sample_by_sample (exp : float -> float) (B : list uchar)
    (w h strength : Z) :
  1 <= w -> 1 <= h -> w * h * 3 = Z.of_nat (length B) ->
  w * h * 3 <= INT_MAX ->
  2 * Spec.kernel_radius (Spec.sigma strength) + 1 <= INT_MAX ->
  let radius := Spec.kernel_radius (Spec.sigma strength) in
  exists kernel temp out,
    generate_gaussian_kernel exp (Spec.sigma strength)
    = Returned (kernel, radius)
    /\ apply_gaussian_rgb exp B w h strength = Returned out
    /\ length temp = length B /\ length out = length B
    /\ forall x y c, 0 <= x < w -> 0 <= y < h -> 0 <= c < 3 ->
         temp !! Z.to_nat ((y * w + x) * 3 + c)
         = Some (Spec.convolve kernel radius (fun k =>
                   Spec.sample B w (Spec.nearest (x + k) (w - 1)) y c))
         /\ out !! Z.to_nat ((y * w + x) * 3 + c)
            = Some (Spec.convolve kernel radius (fun k =>
                      Spec.sample temp w x (Spec.nearest (y + k) (h - 1)) c)).
Proof.
  intros Hw Hh HB Hfit Hsize radius.
  destruct (gaussian_in_int_range exp B w h strength Hw Hh (eq_sym HB)
              Hfit Hsize) as (kernel & Ek & Eb).
  exists kernel, (Spec.horizontal kernel radius B w h),
    (Spec.blur kernel radius B w h).
  split; [exact Ek|]. split; [exact Eb|].
  split; [|split].
  - apply Nat2Z.inj. unfold Spec.horizontal.
    rewrite pass_samples by lia. exact HB.
  - apply Nat2Z.inj. unfold Spec.blur, Spec.vertical.
    rewrite pass_samples by lia. exact HB.
  - intros x y c Hx Hy Hc. split.
    + unfold Spec.horizontal. apply pass_sample; assumption.
    + unfold Spec.blur, Spec.vertical. apply pass_sample; assumption.
Qed.

(** The theorem on a row of nineteen pixels at strength 10, with a
    constant in the place of [exp]. *)
Lemma gaussian_sample_by_sample_witness :
  exists out,
    apply_gaussian_rgb (fun _ => 1%float) Examples.nineteen_pixels 19 1 10
    = Returned out
    /\ length out = length Examples.nineteen_pixels.
Proof.
  destruct (gaussian_sample_by_sample (fun _ => 1%float)
              Examples.nineteen_pixels 19 1 10)
    as (kernel & temp & out & _ & E & _ & L & _);
    [lia | lia | vm_compute; reflexivity | vm_compute; discriminate
    | vm_compute; discriminate |].
  exists out. split; [exact E | exact L].
Defined.

(** X13. The blur never mixes channels: within the range of [int], two
    images of the same dimensions that agree on channel [c] at every pixel
    have blurred images that agree on channel [c] at every pixel, whatever
    their other channels hold. *)
Theorem gaussian_never_mixes_channels (exp : float -> float)
    (B B' : list uchar) (w h strength c : Z) :
  1 <= w -> 1 <= h -> w * h * 3 = Z.of_nat (length B) ->
  w * h * 3 = Z.of_nat (length B') -> w * h * 3 <= INT_MAX ->
  2 * Spec.kernel_radius (Spec.sigma strength) + 1 <= INT_MAX ->
  0 <= c < 3 ->
  (forall x y, 0 <= x < w -> 0 <= y < h ->
     B !! Z.to_nat ((y * w + x) * 3 + c)
     = B' !! Z.to_nat ((y * w + x) * 3 + c)) ->
  exists out out',
    apply_gaussian_rgb exp B w h strength = Returned out
    /\ apply_gaussian_rgb exp B' w h strength = Returned out'
    /\ forall x y, 0 <= x < w -> 0 <= y < h ->
         out !! Z.to_nat ((y * w + x) * 3 + c)
         = out' !! Z.to_nat ((y * w + x) * 3 + c).
Proof.
  intros Hw Hh HB HB' Hfit Hsize Hc Hsame.
  destruct (gaussian_in_int_range exp B w h strength Hw Hh (eq_sym HB)
              Hfit Hsize) as (kernel & Ek & Eb).
  destruct (gaussian_in_int_range exp B' w h strength Hw Hh (eq_sym HB')
              Hfit Hsize) as (kernel' & Ek' & Eb').
  rewrite Ek in Ek'. injection Ek' as <-.
  eexists. eexists. split; [exact Eb|]. split; [exact Eb'|].
  intros x y Hx Hy. unfold Spec.blur, Spec.vertical.
  rewrite !pass_sample by assumption. f_equal.
  apply convolve_ext. intros k Hk.
  pose proof (nearest_range (y + k) (h - 1) ltac:(lia)) as Hy'.
  unfold Spec.horizontal.
  rewrite !sample_of_pass by (try assumption; lia). f_equal.
  apply convolve_ext. intros k' Hk'.
  pose proof (nearest_range (x + k') (w - 1) ltac:(lia)) as Hx'.
  unfold Spec.sample. rewrite Hsame by lia. reflexivity.
Qed.

(** The theorem on two 1 x 1 images with the same red sample. *)
Lemma gaussian_never_mixes_channels_witness :
  exists out out',
    apply_gaussian_rgb (fun _ => 1%float) Examples.red_pixel 1 1 10
    = Returned out
    /\ apply_gaussian_rgb (fun _ => 1%float) Examples.white_pixel 1 1 10
       = Returned out'
    /\ out !! Z.to_nat ((0 * 1 + 0) * 3 + 0)
       = out' !! Z.to_nat ((0 * 1 + 0) * 3 + 0).
Proof.
  destruct (gaussian_never_mixes_channels (fun _ => 1%float)
              Examples.red_pixel Examples.white_pixel 1 1 10 0)
    as (out & out' & E & E' & S);
    [lia | lia | reflexivity | reflexivity | vm_compute; discriminate
    | vm_compute; discriminate | lia | |].
  - intros x y Hx Hy. replace x with 0 by lia. replace y with 0 by lia.
    reflexivity.
  - exists out, out'. split; [exact E|]. split; [exact E'|].
    apply S; lia.
Defined.

(** ** The command-line program *)

Section Program.

Variable exp : float -> float.
Variable decode : string -> Main.LodePNGColorType -> Z * Z * list uchar.
Variable encode :
  list uchar -> Z -> Z -> Main.LodePNGColorType -> Z * list uchar.

(** [filter_to_image_filter] accepts the four names of the chain of [if]s
    of [main], and no other. *)
Lemma filter_to_image_filter_accepts (name : string) :
  (exists k, Main.filter_to_image_filter name = Main.Ok k)
  <-> name = "greyscale"%string \/ name = "invert"%string
      \/ name = "gaussian"%string \/ name = "laplace"%string.
Proof.
  unfold Main.filter_to_image_filter. split.
  - intros (k & H).
    destruct (String.eqb_spec name "greyscale"); [tauto|].
    destruct (String.eqb_spec name "invert"); [tauto|].
    destruct (String.eqb_spec name "gaussian"); [tauto|].
    destruct (String.eqb_spec name "laplace"); [tauto|].
    discriminate H.
  - intros [-> | [-> | [-> | ->]]]; eexists; reflexivity.
Qed.

Lemma call_Ok {A} (m : outcome A) (a : A) :
  Main.call m = Main.Ok a -> m = Returned a.
Proof.
  destruct m; intros H; try discriminate H. injection H as ->. reflexivity.
Qed.

(** What [main] has done when it has written a file. *)
Lemma main_wrote (o : Main.options) (status : Z) (file : string * list uchar) :
  Main.main exp decode encode o = Main.Ok (status, Some file) ->
  Main.help o = false
  /\ status = Main.EXIT_SUCCESS
  /\ exists input out format color,
       Main.input_file o = Some input
       /\ Main.filtered exp (Main.filter o)
            (decode input Main.LCT_RGB).2 (decode input Main.LCT_RGB).1.1
            (decode input Main.LCT_RGB).1.2 (Main.blur_strength o)
          = Main.Ok (out, format)
       /\ Main.format_to_color_type format = Main.Ok color
       /\ encode out (decode input Main.LCT_RGB).1.1
            (decode input Main.LCT_RGB).1.2 color = (0, file.2)
       /\ file.1 = match Main.output_file o with
                   | Some output => output
                   | None => String.append "out-" input
                   end.
Proof using Type.
  unfold Main.main. intros H.
  destruct (Main.help o); [discriminate H|].
  destruct (Main.input_file o) as [input|]; [|discriminate H].
  change (Main.get_image_bytes decode input "rgb")
    with (Main.Ok (decode input Main.LCT_RGB)) in H.
  destruct (decode input Main.LCT_RGB) as [[w h] bytes] eqn:Ed.
  simpl in H.
  destruct (Main.filtered exp (Main.filter o) bytes w h
              (Main.blur_strength o)) as [[out format]|] eqn:Ef;
    [|discriminate H].
  simpl in H. unfold Main.write_image_bytes in H.
  destruct (Main.format_to_color_type format) as [color|] eqn:Ec;
    [|discriminate H].
  simpl in H. destruct (encode out w h color) as [error png] eqn:Ee.
  destruct (Z.eqb_spec error 0) as [->|]; [|discriminate H].
  simpl in H. injection H as <- <-.
  split; [reflexivity|]. split; [reflexivity|].
  exists input, out, format, color. rewrite Ed. simpl.
  repeat split; assumption.
Qed.

End Program.

(** X14. A filter name that [filter_to_image_filter] rejects is never
    reported as an invalid filter, and its image is never copied to the
    output: once the input is decoded, [main] fails with the
    invalid-format error of [format_to_color_type], because the last branch
    of the chain leaves [output_format] empty; nothing is encoded and no
    file is written. *)
Theorem main_unknown_filter_fails_on_the_format (exp : float -> float)
    (decode : string -> Main.LodePNGColorType -> Z * Z * list uchar)
    (encode : list uchar -> Z -> Z -> Main.LodePNGColorType
              -> Z * list uchar)
    (o : Main.options) (input : string) :
  Main.help o = false -> Main.input_file o = Some input ->
  Main.filter_to_image_filter (Main.filter o)
  = Main.Failed Main.invalid_image_filter ->
  Main.main exp decode encode o = Main.Failed Main.invalid_image_format
  /\ forall width height bytes,
       Main.filtered exp (Main.filter o) bytes width height
         (Main.blur_strength o)
       = Main.Ok (bytes, ""%string).
Proof.
  intros Hh Hi Hf.
  assert (E : forall width height bytes,
            Main.filtered exp (Main.filter o) bytes width height
              (Main.blur_strength o)
            = Main.Ok (bytes, ""%string)).
  { intros width height bytes.
    unfold Main.filter_to_image_filter in Hf. unfold Main.filtered.
    destruct (String.eqb (Main.filter o) "greyscale"); [discriminate Hf|].
    destruct (String.eqb (Main.filter o) "invert"); [discriminate Hf|].
    destruct (String.eqb (Main.filter o) "gaussian"); [discriminate Hf|].
    destruct (String.eqb (Main.filter o) "laplace"); [discriminate Hf|].
    reflexivity. }
  split; [|exact E].
  unfold Main.main. rewrite Hh, Hi.
  change (Main.get_image_bytes decode input "rgb")
    with (Main.Ok (decode input Main.LCT_RGB)).
  destruct (decode input Main.LCT_RGB) as [[w h] bytes]. simpl.
  rewrite E. reflexivity.
Qed.

(** The theorem for the filter name "sepia". *)
Lemma main_unknown_filter_fails_on_the_format_witness :
  Main.main (fun _ => 1%float) (fun _ _ => (1, 1, Examples.red_pixel))
    (fun bytes _ _ _ => (0, bytes))
    {| Main.help := false; Main.filter := "sepia";
       Main.input_file := Some "cat.png"%string;
       Main.output_file := None; Main.blur_strength := 10 |}
  = Main.Failed Main.invalid_image_format.
Proof.
  apply (main_unknown_filter_fails_on_the_format (fun _ => 1%float)
           (fun _ _ => (1, 1, Examples.red_pixel))
           (fun bytes _ _ _ => (0, bytes)) _ "cat.png");
    reflexivity.
Defined.

(** X15. [main] writes a file only when it was not asked for help, an
    input file was named, the filter name is one of the four that
    [filter_to_image_filter] accepts and the encoder reported no error; it
    then exits with [EXIT_SUCCESS]. *)
Theorem main_writes_for_known_filters_only (exp : float -> float)
    (decode : string -> Main.LodePNGColorType -> Z * Z * list uchar)
    (encode : list uchar -> Z -> Z -> Main.LodePNGColorType
              -> Z * list uchar)
    (o : Main.options) (status : Z) (name : string) (png : list uchar) :
  Main.main exp decode encode o = Main.Ok (status, Some (name, png)) ->
  Main.help o = false
  /\ status = Main.EXIT_SUCCESS
  /\ (exists input, Main.input_file o = Some input)
  /\ (exists k, Main.filter_to_image_filter (Main.filter o) = Main.Ok k)
  /\ exists out width height color,
       encode out width height color = (0, png).
Proof.
  intros H.
  destruct (main_wrote exp decode encode o status (name, png) H)
    as (Hh & Hs & input & out & format & color & Hi & Hf & Hc & He & _).
  split; [exact Hh|]. split; [exact Hs|].
  split; [exists input; exact Hi|].
  split.
  - destruct (Main.filter_to_image_filter (Main.filter o)) as [k|f] eqn:Ek;
      [exists k; reflexivity|].
    exfalso. unfold Main.filter_to_image_filter in Ek.
    unfold Main.filtered in Hf.
    destruct (String.eqb (Main.filter o) "greyscale"); [discriminate Ek|].
    destruct (String.eqb (Main.filter o) "invert"); [discriminate Ek|].
    destruct (String.eqb (Main.filter o) "gaussian"); [discriminate Ek|].
    destruct (String.eqb (Main.filter o) "laplace"); [discriminate Ek|].
    injection Hf as _ <-. discriminate Hc.
  - eexists. eexists. eexists. eexists. exact He.
Qed.

(** The theorem for the default filter on one red pixel. *)
Lemma main_writes_for_known_filters_only_witness :
  exists k, Main.filter_to_image_filter "greyscale" = Main.Ok k.
Proof.
  destruct (main_writes_for_known_filters_only (fun _ => 1%float)
              (fun _ _ => (1, 1, Examples.red_pixel))
              (fun bytes _ _ _ => (0, bytes))
              {| Main.help := false; Main.filter := "greyscale";
                 Main.input_file := Some "cat.png"%string;
                 Main.output_file := None; Main.blur_strength := 10 |}
              0 "out-cat.png" [to_uchar 77])
    as (_ & _ & _ & K & _); [vm_compute; reflexivity|].
  exact K.
Defined.



(** X17. What [main] hands to the encoder has the shape of its colour
    type: when the decoder has left a [width] x [height] RGB image of at
    least one pixel, with [width * height * 3] samples that fit [int], and
    a file is written, then the buffer encoded is either a grey buffer of
    [width * height] samples or an RGB buffer of [width * height * 3]
    samples, and it is encoded with the dimensions of the input. *)
Theorem main_encodes_whole_images (exp : float -> float)
    (decode : string -> Main.LodePNGColorType -> Z * Z * list uchar)
    (encode : list uchar -> Z -> Z -> Main.LodePNGColorType
              -> Z * list uchar)
    (o : Main.options) (status : Z) (name : string) (png : list uchar)
    (input : string) (width height : Z) (bytes : list uchar) :
  Main.main exp decode encode o = Main.Ok (status, Some (name, png)) ->
  Main.input_file o = Some input ->
  decode input Main.LCT_RGB = (width, height, bytes) ->
  1 <= width -> 1 <= height ->
  width * height * 3 = Z.of_nat (length bytes) ->
  width * height * 3 <= INT_MAX ->
  exists out color,
    encode out width height color = (0, png)
    /\ ((color = Main.LCT_GREY /\ Z.of_nat (length out) = width * height)
        \/ (color = Main.LCT_RGB
            /\ Z.of_nat (length out) = width * height * 3)).
Proof.
  intros H Hi Hd Hw Hh HB Hfit.
  destruct (main_wrote exp decode encode o status (name, png) H)
    as (_ & _ & input' & out & format & color & Hi' & Hf & Hc & He & _).
  rewrite Hi in Hi'. injection Hi' as <-.
  rewrite Hd in Hf, He. simpl in Hf, He.
  assert (H3 : Z.of_nat (length bytes) mod 3 = 0)
    by (rewrite <- HB; apply Z.mod_mul; lia).
  exists out, color. split; [exact He|].
  unfold Main.filtered in Hf.
  destruct (String.eqb (Main.filter o) "greyscale").
  { destruct (apply_greyscale_rgb_simd bytes) as [g| | |] eqn:E;
      try discriminate Hf.
    injection Hf as <- <-. injection Hc as <-. left. split; [reflexivity|].
    rewrite (greyscale_loops bytes _ (multiple_of_3 bytes H3)) in E.
    injection E as <-. rewrite greyscale_length, <- HB.
    apply Z.div_mul. lia. }
  destruct (String.eqb (Main.filter o) "invert").
  { destruct (apply_invert_rgb_simd bytes) as [g| | |] eqn:E;
      try discriminate Hf.
    injection Hf as <- <-. injection Hc as <-. right. split; [reflexivity|].
    rewrite (invert_loops bytes H3) in E. injection E as <-.
    unfold Spec.invert. rewrite length_fmap. lia. }
  destruct (String.eqb (Main.filter o) "gaussian").
  { destruct (apply_gaussian_rgb exp bytes width height
                (Main.blur_strength o)) as [g| | |] eqn:E;
      try discriminate Hf.
    injection Hf as <- <-. injection Hc as <-. right. split; [reflexivity|].
    destruct (Z.le_gt_cases
                (2 * Spec.kernel_radius (Spec.sigma (Main.blur_strength o))
                 + 1) INT_MAX) as [Hsize|Hsize].
    - destruct (gaussian_in_int_range exp bytes width height
                  (Main.blur_strength o) Hw Hh (eq_sym HB) Hfit Hsize)
        as (kernel & _ & Eb).
      rewrite Eb in E. injection E as <-.
      unfold Spec.blur, Spec.vertical. apply pass_samples. lia.
    - rewrite (gaussian_kernel_too_large exp bytes width height
                 (Main.blur_strength o) H3 Hsize) in E.
      discriminate E. }
  destruct (String.eqb (Main.filter o) "laplace").
  { destruct (apply_laplacian_rgb bytes width height) as [g| | |] eqn:E;
      try discriminate Hf.
    injection Hf as <- <-. injection Hc as <-. left. split; [reflexivity|].
    assert (Hfit' : width * height <= INT_MAX) by lia.
    rewrite (laplacian_in_int_range bytes width height Hw Hh Hfit' HB) in E.
    injection E as <-.
    rewrite (laplacian_res_length bytes width height Hw Hh Hfit' HB).
    exact (pixel_count bytes width height Hw Hh Hfit' HB). }
  injection Hf as <- <-. discriminate Hc.
Qed.

(** The theorem for the Laplacian of a row of nineteen pixels. *)
Lemma main_encodes_whole_images_witness :
  exists out color,
    (0, out) = (0, replicate 19 Byte.x00 : list uchar)
    /\ ((color = Main.LCT_GREY /\ Z.of_nat (length out) = 19 * 1)
        \/ (color = Main.LCT_RGB /\ Z.of_nat (length out) = 19 * 1 * 3)).
Proof.
  apply (main_encodes_whole_images (fun _ => 1%float)
           (fun _ _ => (19, 1, Spec.flat_image 19 Byte.x01 Byte.x02 Byte.x03))
           (fun bytes _ _ _ => (0, bytes))
           {| Main.help := false; Main.filter := "laplace";
              Main.input_file := Some "cat.png"%string;
              Main.output_file := None; Main.blur_strength := 10 |}
           0 "out-cat.png" (replicate 19 Byte.x00) "cat.png" 19 1
           (Spec.flat_image 19 Byte.x01 Byte.x02 Byte.x03));
    [vm_compute; reflexivity | reflexivity | reflexivity | lia | lia
    | vm_compute; reflexivity | vm_compute; discriminate].
Defined.
